(** * posthog-node: feature-flag poller, resilient transport, dispatch queue

    A shallow embedding of the JavaScript sources
    [feature-flags.js], [fetchRetry.js], [fetchTimeout.js],
    [decoratedFetch.js] and of the dispatch queue that the client tests
    exercise, with the properties that the specification states about
    them and further properties that the code shows.

    JavaScript numbers are IEEE-754 binary64 values and are modelled by
    Rocq's primitive floats; strings are modelled by their UTF-8 bytes. *)

From Stdlib Require Import ZArith List String Ascii Bool Lia.
From Stdlib Require Import Uint63 Floats.
Import ListNotations.

Local Open Scope string_scope.
Local Open Scope list_scope.
Local Open Scope Z_scope.

(* ================================================================== *)
(** * SHA-1 (crypto.createHash('sha1')), over 32-bit words held in [Z] *)
(* ================================================================== *)

Module Sha1.

Definition add32 (x y : Z) : Z := (x + y) mod 2 ^ 32.

Definition rotl (n x : Z) : Z :=
  Z.lor (Z.shiftl x n mod 2 ^ 32) (Z.shiftr x (32 - n)).

Definition not32 (x : Z) : Z := Z.lxor x 0xffffffff.

(** Round function and round constant of round [t]. *)
Definition f (t : nat) (b c d : Z) : Z :=
  if (t <? 20)%nat then Z.lor (Z.land b c) (Z.land (not32 b) d)
  else if (t <? 40)%nat then Z.lxor (Z.lxor b c) d
  else if (t <? 60)%nat then
    Z.lor (Z.lor (Z.land b c) (Z.land b d)) (Z.land c d)
  else Z.lxor (Z.lxor b c) d.

Definition K (t : nat) : Z :=
  if (t <? 20)%nat then 0x5a827999
  else if (t <? 40)%nat then 0x6ed9eba1
  else if (t <? 60)%nat then 0x8f1bbcdc
  else 0xca62c1d6.

(** Big-endian bytes of the low [8 * n] bits of [x]. *)
Fixpoint be_bytes (n : nat) (x : Z) : list Z :=
  match n with
  | O => []
  | S n' => (x / 256 ^ Z.of_nat n') mod 256 :: be_bytes n' x
  end.

Definition be_word (bs : list Z) : Z :=
  fold_left (fun acc b => acc * 256 + b) bs 0.

(** Message padding: 0x80, zeros up to 56 mod 64, 64-bit bit length. *)
Definition pad (msg : list Z) : list Z :=
  let l := Z.of_nat (List.length msg) in
  (msg ++ 0x80 :: repeat 0 (Z.to_nat ((55 - l) mod 64)) ++ be_bytes 8 (8 * l))%list.

Fixpoint chunks (fuel n : nat) (l : list Z) : list (list Z) :=
  match fuel, l with
  | O, _ | _, [] => []
  | S fuel', _ => firstn n l :: chunks fuel' n (skipn n l)
  end.

Definition words_of_block (blk : list Z) : list Z :=
  map be_word (chunks 16 4 blk).

(** Message schedule: extend the 16 block words to 80 words. *)
Fixpoint schedule (n : nat) (w : list Z) : list Z :=
  match n with
  | O => w
  | S n' =>
      let i := List.length w in
      let x := Z.lxor (Z.lxor (nth (i - 3) w 0) (nth (i - 8) w 0))
                      (Z.lxor (nth (i - 14) w 0) (nth (i - 16) w 0)) in
      schedule n' (w ++ [rotl 1 x])%list
  end.

Definition state : Type := Z * Z * Z * Z * Z.

Definition round (s : state) (tw : nat * Z) : state :=
  let '(a, b, c, d, e) := s in
  let '(t, w) := tw in
  let temp := add32 (add32 (add32 (add32 (rotl 5 a) (f t b c d)) e) (K t)) w in
  (temp, a, rotl 30 b, c, d).

Definition compress (h : state) (blk : list Z) : state :=
  let w := schedule 64 (words_of_block blk) in
  let '(a, b, c, d, e) := fold_left round (combine (seq 0 80) w) h in
  let '(h0, h1, h2, h3, h4) := h in
  (add32 h0 a, add32 h1 b, add32 h2 c, add32 h3 d, add32 h4 e).

Definition init : state :=
  (0x67452301, 0xefcdab89, 0x98badcfe, 0x10325476, 0xc3d2e1f0).

Definition bytes_of_string (s : string) : list Z :=
  map (fun c => Z.of_N (N_of_ascii c)) (list_ascii_of_string s).

Definition digest_words (s : string) : list Z :=
  let p := pad (bytes_of_string s) in
  let '(h0, h1, h2, h3, h4) :=
    fold_left compress (chunks (List.length p) 64 p) init in
  [h0; h1; h2; h3; h4].

(** The 160-bit digest as one big-endian integer. *)
Definition digest (s : string) : Z :=
  fold_left (fun acc w => acc * 2 ^ 32 + w mod 2 ^ 32) (digest_words s) 0.

Definition hex_digit (d : Z) : ascii :=
  nth (Z.to_nat d) (list_ascii_of_string "0123456789abcdef") "0"%char.

Fixpoint hex_of (n : nat) (x : Z) : string :=
  match n with
  | O => EmptyString
  | S n' => String (hex_digit ((x / 16 ^ Z.of_nat n') mod 16)) (hex_of n' x)
  end.

(** The [n] low hexadecimal digits of [x], most significant first. *)
Fixpoint nibbles (n : nat) (x : Z) : list Z :=
  match n with
  | O => []
  | S n' => (x / 16 ^ Z.of_nat n') mod 16 :: nibbles n' x
  end.

(** [hash.digest('hex')]: forty lower-case hexadecimal digits. *)
Definition hexdigest (s : string) : string :=
  fold_right (fun w acc => (hex_of 8 w ++ acc)%string) EmptyString (digest_words s).

End Sha1.

(* ================================================================== *)
(** * JavaScript values and [parseInt]                                 *)
(* ================================================================== *)

(** Value of a character as a digit in radix up to 36. *)
Definition digit_value (c : ascii) : option Z :=
  let n := Z.of_N (N_of_ascii c) in
  if (48 <=? n) && (n <=? 57) then Some (n - 48)
  else if (97 <=? n) && (n <=? 122) then Some (n - 87)
  else if (65 <=? n) && (n <=? 90) then Some (n - 55)
  else None.

(** Longest prefix of radix digits; [None] when it is empty. *)
Fixpoint parse_digits (radix : Z) (s : string) (acc : option Z) : option Z :=
  match s with
  | EmptyString => acc
  | String c rest =>
      match digit_value c with
      | Some d =>
          if d <? radix then
            parse_digits radix rest
              (Some (match acc with Some a => a * radix + d | None => d end))
          else acc
      | None => acc
      end
  end.

(** The value of a list of hexadecimal digits, most significant first,
    read after the digits accumulated in [a]. *)
Definition hex_value (ds : list Z) (a : Z) : Z :=
  fold_left (fun acc d => acc * 16 + d) ds a.

(** The characters [parseInt] strips from the start of its argument
    are the [StrWhiteSpaceChar] of ECMAScript: the white space
    characters (TAB, VT, FF, SP, NBSP, ZWNBSP and the other space
    separators of Unicode) and the line terminators (LF, CR, LS, PS).
    [is_whitespace] tests a byte for the ASCII ones,
    [is_whitespace_code] a code point for the others. *)
Definition is_whitespace (c : ascii) : bool :=
  let n := Z.of_N (N_of_ascii c) in
  (n =? 32) || ((9 <=? n) && (n <=? 13)).

Definition is_whitespace_code (n : Z) : bool :=
  (n =? 0xA0) || (n =? 0x1680) || ((0x2000 <=? n) && (n <=? 0x200A))
  || (n =? 0x2028) || (n =? 0x2029) || (n =? 0x202F) || (n =? 0x205F)
  || (n =? 0x3000) || (n =? 0xFEFF).

Definition is_continuation (b : Z) : bool := (0x80 <=? b) && (b <=? 0xBF).

(** The code point that two, or three, bytes encode in UTF-8; -1 when
    they are not the encoding of a code point. *)
Definition utf8_two (c1 c2 : ascii) : Z :=
  let b1 := Z.of_N (N_of_ascii c1) in
  let b2 := Z.of_N (N_of_ascii c2) in
  if (0xC2 <=? b1) && (b1 <=? 0xDF) && is_continuation b2
  then (b1 - 0xC0) * 64 + (b2 - 0x80)
  else -1.

Definition utf8_three (c1 c2 c3 : ascii) : Z :=
  let b1 := Z.of_N (N_of_ascii c1) in
  let b2 := Z.of_N (N_of_ascii c2) in
  let b3 := Z.of_N (N_of_ascii c3) in
  let n := (b1 - 0xE0) * 4096 + (b2 - 0x80) * 64 + (b3 - 0x80) in
  if (0xE0 <=? b1) && (b1 <=? 0xEF) && is_continuation b2
     && is_continuation b3 && (0x800 <=? n)
     && negb ((0xD800 <=? n) && (n <=? 0xDFFF))
  then n
  else -1.

(** [TrimString(s, start)]: a byte below 0xC2 starts no character of
    more than one byte. *)
Fixpoint skip_whitespace (s : string) : string :=
  match s with
  | String c rest =>
      if is_whitespace c then skip_whitespace rest
      else if Z.of_N (N_of_ascii c) <? 0xC2 then s
      else
        match rest with
        | String c2 rest2 =>
            if is_whitespace_code (utf8_two c c2) then skip_whitespace rest2
            else
              match rest2 with
              | String c3 rest3 =>
                  if is_whitespace_code (utf8_three c c2 c3)
                  then skip_whitespace rest3
                  else s
              | EmptyString => s
              end
        | EmptyString => s
        end
  | EmptyString => s
  end.

(** A string given by its bytes. *)
Definition of_bytes (bs : list nat) : string :=
  string_of_list_ascii (map ascii_of_nat bs).

(** The [StrWhiteSpaceChar] characters in UTF-8: U+0009 to U+000D,
    U+0020, U+00A0, U+1680, U+2000 to U+200A, U+2028, U+2029, U+202F,
    U+205F, U+3000 and U+FEFF. *)
Definition whitespace_encodings : list string :=
  map of_bytes
    [[9]; [10]; [11]; [12]; [13]; [32]; [194; 160]; [225; 154; 128];
     [226; 128; 128]; [226; 128; 129]; [226; 128; 130]; [226; 128; 131];
     [226; 128; 132]; [226; 128; 133]; [226; 128; 134]; [226; 128; 135];
     [226; 128; 136]; [226; 128; 137]; [226; 128; 138];
     [226; 128; 168]; [226; 128; 169]; [226; 128; 175]; [226; 129; 159];
     [227; 128; 128]; [239; 187; 191]]%nat.

Definition strip_hex_prefix (radix : Z) (s : string) : string :=
  match s with
  | String "0" (String c rest) =>
      if (radix =? 16) && (Ascii.eqb c "x" || Ascii.eqb c "X") then rest else s
  | _ => s
  end.

(** [parseInt(s, radix)] for an explicit radix in 2..36: leading white
    space is stripped, then a sign, then for radix 16 a prefix [0x] or
    [0X], and the longest run of digits of the radix is read; the
    result is the mathematical integer, [None] for NaN. *)
Definition parseInt (s : string) (radix : Z) : option Z :=
  match skip_whitespace s with
  | String "-" rest =>
      option_map Z.opp (parse_digits radix (strip_hex_prefix radix rest) None)
  | String "+" rest => parse_digits radix (strip_hex_prefix radix rest) None
  | rest => parse_digits radix (strip_hex_prefix radix rest) None
  end.

(** The Number nearest to an integer of magnitude below 2^63. *)
Definition number_of_Z (z : Z) : float :=
  if 0 <=? z then PrimFloat.of_uint63 (Uint63.of_Z z)
  else PrimFloat.opp (PrimFloat.of_uint63 (Uint63.of_Z (- z))).

Definition number_of_parse (o : option Z) : float :=
  match o with
  | Some z => number_of_Z z
  | None => PrimFloat.nan
  end.

(** The values a flag's [rollout_percentage] can hold: absent, null or a
    number. *)
Inductive jsvalue : Type :=
| JSundefined
| JSnull
| JSnumber (x : float).

Definition ToBoolean (v : jsvalue) : bool :=
  match v with
  | JSundefined | JSnull => false
  | JSnumber x => negb (PrimFloat.is_zero x || PrimFloat.is_nan x)
  end.

Definition ToNumber (v : jsvalue) : float :=
  match v with
  | JSundefined => PrimFloat.nan
  | JSnull => PrimFloat.zero
  | JSnumber x => x
  end.

(* ================================================================== *)
(** * feature-flags.js: the simple-flag rollout decision               *)
(* ================================================================== *)

(** [const LONG_SCALE = 0xfffffffffffffff]: the literal read as a Number. *)
Definition LONG_SCALE : float := number_of_Z 0xfffffffffffffff.

Definition integerRepresentationOfHashSubset (key distinctId : string)
  : option Z :=
  parseInt (substring 0 15 (Sha1.hexdigest (key ++ "." ++ distinctId)%string)) 16.

(** [integerRepresentationOfHashSubset / LONG_SCALE]. *)
Definition hash_quotient (key distinctId : string) : float :=
  (number_of_parse (integerRepresentationOfHashSubset key distinctId)
   / LONG_SCALE)%float.

Definition _isSimpleFlagEnabled (key distinctId : string)
  (rolloutPercentage : jsvalue) : bool :=
  if negb (ToBoolean rolloutPercentage) then true
  else
    (hash_quotient key distinctId <=? ToNumber rolloutPercentage / 100)%float.

(* ================================================================== *)
(** * HTTP responses, thrown errors and promise results               *)
(* ================================================================== *)

(** A flag definition as listed by the server. *)
Record FeatureFlag : Type := {
  flag_key : string;
  is_simple_flag : bool;
  rollout_percentage : jsvalue;
  active : bool
}.

(** The object [res.json()] resolves to; a field is [None] when the
    property is absent from the parsed body. *)
Record JsonBody : Type := {
  results : option (list FeatureFlag);
  featureFlags_field : option (list string)
}.

(** A fetch [Response]: [json] is [None] when [res.json()] rejects.
    The values of the headers, like every string here, are held by the
    UTF-8 bytes of the JavaScript string. *)
Record Response : Type := {
  status : Z;
  statusText : string;
  headers : list (string * string);
  json : option JsonBody
}.

(** [Response.ok] of the Fetch standard: the status is in 200..299. *)
Definition ok (res : Response) : bool :=
  (200 <=? status res) && (status res <=? 299).

(** [res.headers.get(name)], names held in lower case. *)
Fixpoint headers_get (name : string) (hs : list (string * string))
  : option string :=
  match hs with
  | [] => None
  | (n, v) :: rest => if String.eqb n name then Some v else headers_get name rest
  end.

(** The errors the sources throw or receive. *)
Inductive jserror : Type :=
| ResponseError (response : Response)
| ClientError (message : string)
| JsError (name message : string) (code type : option string).

Definition error_message (e : jserror) : string :=
  match e with
  | ResponseError res => statusText res
  | ClientError m => m
  | JsError _ m _ _ => m
  end.

Definition error_code (e : jserror) : option string :=
  match e with
  | JsError _ _ c _ => c
  | _ => None
  end.

Definition error_type (e : jserror) : option string :=
  match e with
  | JsError _ _ _ t => t
  | _ => None
  end.

Definition instanceof_ClientError (e : jserror) : bool :=
  match e with ClientError _ => true | _ => false end.

Definition new_Error (m : string) : jserror := JsError "Error" m None None.

(** A sample response. *)
Definition unauthorized : Response :=
  {| status := 401; statusText := "Unauthorized"; headers := [];
     json := Some {| results := None; featureFlags_field := None |} |}.

(** How an awaited promise settles. *)
Inductive settled (A : Type) : Type :=
| Fulfilled (a : A)
| Rejected (e : jserror).
Arguments Fulfilled {A} a.
Arguments Rejected {A} e.

(* ================================================================== *)
(** * feature-flags.js: FeatureFlagsPoller                             *)
(* ================================================================== *)

Module Poller.

(** A request handed to [decoratedFetch]. *)
Record Request : Type := {
  url : string;
  method : string;
  authorization : option string;
  body_distinct_id : option string;
  body_groups : list (string * string)
}.

Record FeatureFlagsPoller : Type := {
  pollingInterval : Z;
  personalApiKey : string;
  projectApiKey : string;
  host : string;
  featureFlags : list FeatureFlag;
  loadedSuccessfullyOnce : bool;
  (** the pending refresh timer, by its delay *)
  poller : option Z
}.

Definition set_poller (t : option Z) (p : FeatureFlagsPoller) :=
  {| pollingInterval := pollingInterval p;
     personalApiKey := personalApiKey p;
     projectApiKey := projectApiKey p;
     host := host p;
     featureFlags := featureFlags p;
     loadedSuccessfullyOnce := loadedSuccessfullyOnce p;
     poller := t |}.

Definition set_loaded (fs : list FeatureFlag) (p : FeatureFlagsPoller) :=
  {| pollingInterval := pollingInterval p;
     personalApiKey := personalApiKey p;
     projectApiKey := projectApiKey p;
     host := host p;
     featureFlags := fs;
     loadedSuccessfullyOnce := true;
     poller := poller p |}.

(** The constructor, before its first [loadFeatureFlags()]. *)
Definition new (interval : Z) (personal project hst : string) :=
  {| pollingInterval := interval;
     personalApiKey := personal;
     projectApiKey := project;
     host := hst;
     featureFlags := [];
     loadedSuccessfullyOnce := false;
     poller := None |}.

Definition invalid_key_message : string :=
  "Your personalApiKey is invalid. Are you sure you're not using your Project API key? More information: https://posthog.com/docs/api/overview".

Section WithNetwork.

(** What [decoratedFetch] settles to for a request. *)
Variable net : Request -> settled Response.

Definition _request (p : FeatureFlagsPoller) (path meth : string)
  (usePersonalApiKey : bool) (distinct_id : option string)
  (groups : list (string * string)) : settled Response :=
  let url0 := (host p ++ "/" ++ path ++ "/")%string in
  let req :=
    if usePersonalApiKey then
      {| url := (url0 ++ "?token=" ++ projectApiKey p)%string;
         method := meth;
         authorization := Some ("Bearer " ++ personalApiKey p)%string;
         body_distinct_id := distinct_id;
         body_groups := groups |}
    else
      {| url := url0;
         method := meth;
         authorization := None;
         body_distinct_id := distinct_id;
         body_groups := groups |} in
  let wrap (m : string) :=
    Rejected (new_Error ("Request to " ++ path ++ " failed with error: " ++ m)%string) in
  match net req with
  | Fulfilled res =>
      if negb (ok res) then wrap "Failed to fetch request" else Fulfilled res
  | Rejected err => wrap (error_message err)
  end.

(** The [try] block of [_loadFeatureFlags]. *)
Definition load_body (p : FeatureFlagsPoller)
  : FeatureFlagsPoller * settled unit :=
  match _request p "api/feature_flag" "GET" true None [] with
  | Rejected err => (p, Rejected err)
  | Fulfilled requestResponse =>
      if status requestResponse =? 401 then
        (p, Rejected (ClientError invalid_key_message))
      else
        match json requestResponse with
        | None =>
            (p, Rejected (JsError "SyntaxError" "Unexpected token" None None))
        | Some js =>
            if ok requestResponse then
              match results js with
              | Some rs => (set_loaded (filter active rs) p, Fulfilled tt)
              | None =>
                  (p, Rejected (JsError "TypeError"
                         "Cannot read properties of undefined" None None))
              end
            else (p, Rejected (new_Error "Failed to fetch feature flags"))
        end
  end.

Definition _loadFeatureFlags (p : FeatureFlagsPoller)
  : FeatureFlagsPoller * settled unit :=
  let p1 := set_poller (Some (pollingInterval p)) p in
  match load_body p1 with
  | (p2, Rejected err) =>
      if instanceof_ClientError err then (p2, Rejected err)
      else (p2, Fulfilled tt)
  | done => done
  end.

Definition loadFeatureFlags (p : FeatureFlagsPoller) (forceReload : bool)
  : FeatureFlagsPoller * settled unit :=
  if negb (loadedSuccessfullyOnce p) || forceReload
  then _loadFeatureFlags p
  else (p, Fulfilled tt).

(** The refresh timer firing: [() => this._loadFeatureFlags()]. *)
Definition poller_tick (p : FeatureFlagsPoller)
  : FeatureFlagsPoller * settled unit :=
  _loadFeatureFlags p.

(** One invocation of [featureFlagCalledCallback]. *)
Definition callback_call : Type := string * string * bool.

(** The remote branch of [isFeatureEnabled]. *)
Definition decide (p : FeatureFlagsPoller) (key distinctId : string)
  (defaultResult : bool) (groups : list (string * string)) : bool :=
  match _request p "decide" "POST" false (Some distinctId) groups with
  | Fulfilled res =>
      if ok res then
        match json res with
        | Some js =>
            match featureFlags_field js with
            | Some l => existsb (String.eqb key) l
            | None => defaultResult
            end
        | None => defaultResult
        end
      else defaultResult
  | Rejected _ => defaultResult
  end.

Definition isFeatureEnabled (p : FeatureFlagsPoller)
  (key distinctId : string) (defaultResult : bool)
  (groups : list (string * string))
  : FeatureFlagsPoller * settled bool * list callback_call :=
  match loadFeatureFlags p false with
  | (p1, Rejected err) => (p1, Rejected err, [])
  | (p1, Fulfilled _) =>
      if negb (loadedSuccessfullyOnce p1) then
        (p1, Fulfilled defaultResult, [])
      else
        match find (fun flag => String.eqb key (flag_key flag))
                   (featureFlags p1) with
        | None => (p1, Fulfilled defaultResult, [])
        | Some featureFlag =>
            let isFlagEnabledResponse :=
              if is_simple_flag featureFlag then
                _isSimpleFlagEnabled key distinctId
                  (rollout_percentage featureFlag)
              else decide p1 key distinctId defaultResult groups in
            (p1, Fulfilled isFlagEnabledResponse,
             [(key, distinctId, isFlagEnabledResponse)])
        end
  end.

End WithNetwork.

(** The flag looked up by [isFeatureEnabled] in a loaded table. *)
Definition lookup (p : FeatureFlagsPoller) (key : string) : option FeatureFlag :=
  if loadedSuccessfullyOnce p
  then find (fun flag => String.eqb key (flag_key flag)) (featureFlags p)
  else None.

(** The request [_request] hands to [decoratedFetch] for the flag
    listing: the project key in the query, the personal key in the
    [Authorization] header. *)
Definition flags_request (p : FeatureFlagsPoller) : Request :=
  {| url := ((host p ++ "/" ++ "api/feature_flag" ++ "/")
             ++ "?token=" ++ projectApiKey p)%string;
     method := "GET";
     authorization := Some ("Bearer " ++ personalApiKey p)%string;
     body_distinct_id := None;
     body_groups := [] |}.

(** The request [_request] hands to [decoratedFetch] for a remote
    decision. *)
Definition decide_request (p : FeatureFlagsPoller) (distinctId : string)
  (groups : list (string * string)) : Request :=
  {| url := (host p ++ "/" ++ "decide" ++ "/")%string;
     method := "POST";
     authorization := None;
     body_distinct_id := Some distinctId;
     body_groups := groups |}.

Definition null_unref_error : jserror :=
  JsError "TypeError" "Cannot read properties of null (reading 'unref')"
          None None.

(** [stopPoller()]: [clearTimeout(this.poller)] accepts [null], the
    [this.poller.unref()] after it throws on [null], before the
    assignment. *)
Definition stopPoller (p : FeatureFlagsPoller) : jserror + FeatureFlagsPoller :=
  match poller p with
  | Some _ => inr (set_poller None p)
  | None => inl null_unref_error
  end.

(** What a user of a poller, or its timer, can do to it. *)
Inductive op : Type :=
| Load (forceReload : bool)
| Tick
| IsEnabled (key distinctId : string) (defaultResult : bool)
            (groups : list (string * string))
| Stop.

(** The poller after one operation, the network behaving as [net]
    during it.  The refresh timer fires only while it is pending; a
    [stopPoller] that throws leaves the poller as it was. *)
Definition step (net : Request -> settled Response) (o : op)
  (p : FeatureFlagsPoller) : FeatureFlagsPoller :=
  match o with
  | Load forceReload => fst (loadFeatureFlags net p forceReload)
  | Tick =>
      match poller p with
      | Some _ => fst (poller_tick net p)
      | None => p
      end
  | IsEnabled key distinctId defaultResult groups =>
      fst (fst (isFeatureEnabled net p key distinctId defaultResult groups))
  | Stop =>
      match stopPoller p with
      | inr p' => p'
      | inl _ => p
      end
  end.

(** A history of operations, each under the network of its time and
    each settled before the next one starts. *)
Fixpoint run_trace (trace : list ((Request -> settled Response) * op))
  (p : FeatureFlagsPoller) : FeatureFlagsPoller :=
  match trace with
  | [] => p
  | (net, o) :: rest => run_trace rest (step net o p)
  end.

Definition is_forced_load (o : op) : bool :=
  match o with Load true => true | _ => false end.

(** What holds of a poller built with the given configuration. *)
Definition invariant (interval : Z) (personal project hst : string)
  (p : FeatureFlagsPoller) : Prop :=
  pollingInterval p = interval
  /\ personalApiKey p = personal
  /\ projectApiKey p = project
  /\ host p = hst
  /\ Forall (fun flag => active flag = true) (featureFlags p)
  /\ (loadedSuccessfullyOnce p = false -> featureFlags p = [])
  /\ (poller p = None \/ poller p = Some interval).

(** Sample flags, answers and networks. *)
Definition simple_flag (key : string) (percentage : jsvalue) (act : bool)
  : FeatureFlag :=
  {| flag_key := key; is_simple_flag := true;
     rollout_percentage := percentage; active := act |}.

Definition remote_flag (key : string) : FeatureFlag :=
  {| flag_key := key; is_simple_flag := false;
     rollout_percentage := JSnull; active := true |}.

Definition listing (rs : list FeatureFlag) : Response :=
  {| status := 200; statusText := "OK"; headers := [];
     json := Some {| results := Some rs; featureFlags_field := None |} |}.

Definition decision (enabled : list string) : Response :=
  {| status := 200; statusText := "OK"; headers := [];
     json := Some {| results := None; featureFlags_field := Some enabled |} |}.

(** A server that lists [rs] and decides [enabled]. *)
Definition serving (rs : list FeatureFlag) (enabled : list string)
  : Request -> settled Response :=
  fun req =>
    if String.eqb (method req) "GET" then Fulfilled (listing rs)
    else Fulfilled (decision enabled).

(** A network that is down. *)
Definition unreachable : Request -> settled Response :=
  fun _ => Rejected (JsError "Error" "connect ECONNREFUSED"
                             (Some "ECONNREFUSED") None).

Definition sample_poller : FeatureFlagsPoller :=
  new 30000 "personal" "project" "https://app.posthog.com".

End Poller.

(* ================================================================== *)
(** * fetchTimeout.js: the timeout wrapper                             *)
(* ================================================================== *)

Module FetchTimeout.

(** State of the promise returned by [fetchTimeout]. *)
Inductive promise : Type :=
| Pending
| Resolved (response : Response)
| Failed (err : jserror).

(** One call of [fetchTimeout]: the promise, the local [timeoutId] and
    the timers the call has armed in the runtime (handle, delay). *)
Record call : Type := {
  outcome : promise;
  timeoutId : option nat;
  armed : list (nat * Z)
}.

Definition timeout_error : jserror :=
  JsError "TypeError" "Network request timeout" None None.

(** [resolve] and [reject] act on a pending promise only. *)
Definition settle (v : promise) (c : call) : call :=
  match outcome c with
  | Pending => {| outcome := v; timeoutId := timeoutId c; armed := armed c |}
  | _ => c
  end.

Definition clearTimeout (id : nat) (c : call) : call :=
  {| outcome := outcome c;
     timeoutId := timeoutId c;
     armed := filter (fun t => negb (Nat.eqb (fst t) id)) (armed c) |}.

(** The promise executor up to the call of the underlying [fetch]:
    [options.timeout || 0], [let timeoutId = undefined], and the
    [setTimeout] whose handle is not kept. *)
Definition fetchTimeout (timeout : option Z) : call :=
  let requestTimeout :=
    match timeout with
    | Some t => if t =? 0 then 0 else t
    | None => 0
    end in
  let shouldTimeout := requestTimeout >? 0 in
  {| outcome := Pending;
     timeoutId := None;
     armed := if shouldTimeout then [(1%nat, requestTimeout)] else [] |}.

(** [.then((response) => ...)] of the underlying call. *)
Definition on_response (response : Response) (c : call) : call :=
  let c1 := match timeoutId c with
            | Some id => clearTimeout id c
            | None => c
            end in
  settle (Resolved response) c1.

(** [.catch((err) => ...)] of the underlying call. *)
Definition on_error (err : jserror) (c : call) : call :=
  let c1 := match timeoutId c with
            | Some id => clearTimeout id c
            | None => c
            end in
  settle (Failed err) c1.

(** An armed timer elapsing: it leaves the runtime and runs its
    callback, [reject(new TypeError('Network request timeout'))]. *)
Definition on_timer (id : nat) (c : call) : call :=
  if existsb (fun t => Nat.eqb (fst t) id) (armed c)
  then settle (Failed timeout_error) (clearTimeout id c)
  else c.

(** What the wrapped [fetch] does during one call, as the wrapper sees
    it: it settles before a timer of the call can elapse, or it does not
    (it settles [late], or never). *)
Inductive underlying : Type :=
| Quick (s : settled Response)
| Slow (late : option (settled Response)).

(** The wrapped call settling: its [then] or its [catch] handler runs. *)
Definition on_settled (s : settled Response) (c : call) : call :=
  match s with
  | Fulfilled response => on_response response c
  | Rejected err => on_error err c
  end.

(** Every timer that is armed elapsing, in the order armed. *)
Definition on_timers (c : call) : call :=
  fold_left (fun c' t => on_timer (fst t) c') (armed c) c.

(** One call of [fetchTimeout] run until nothing is left to happen. *)
Definition run_call (timeout : option Z) (u : underlying) : call :=
  let c := fetchTimeout timeout in
  match u with
  | Quick s => on_timers (on_settled s c)
  | Slow None => on_timers c
  | Slow (Some s) => on_settled s (on_timers c)
  end.

(** What awaiting the promise gives; [None] while it is pending. *)
Definition awaited (c : call) : option (settled Response) :=
  match outcome c with
  | Pending => None
  | Resolved response => Some (Fulfilled response)
  | Failed err => Some (Rejected err)
  end.

End FetchTimeout.

(* ================================================================== *)
(** * fetchRetry.js: the retrying transport                            *)
(* ================================================================== *)

Module FetchRetry.

(** The attempt loop is the one of the [async-retry] package that
    fetchRetry.js calls: attempts numbered from 1, one delay per allowed
    retry, and on exhaustion a rejection with the main error of the
    underlying [retry] package.  The informational [onRetry] hooks are
    left out. *)

Definition MIN_TIMEOUT : Z := 10.
Definition MAX_RETRIES : nat := 5.
Definition MAX_RETRY_AFTER : Z := 20.
Definition FACTOR : Z := 6.

Record RetryOpts : Type := {
  minTimeout : Z;
  retries : nat;
  factor : Z;
  maxRetryAfter : Z
}.

(** [opts.retry]: the fields a caller may override. *)
Record RetryOverrides : Type := {
  o_minTimeout : option Z;
  o_retries : option nat;
  o_factor : option Z;
  o_maxRetryAfter : option Z
}.

Definition no_overrides : RetryOverrides :=
  {| o_minTimeout := None; o_retries := None;
     o_factor := None; o_maxRetryAfter := None |}.

Definition or_default {A : Type} (o : option A) (d : A) : A :=
  match o with Some a => a | None => d end.

(** [Object.assign({minTimeout: ..., ...}, opts.retry)]. *)
Definition retryOpts (o : RetryOverrides) : RetryOpts :=
  {| minTimeout := or_default (o_minTimeout o) MIN_TIMEOUT;
     retries := or_default (o_retries o) MAX_RETRIES;
     factor := or_default (o_factor o) FACTOR;
     maxRetryAfter := or_default (o_maxRetryAfter o) MAX_RETRY_AFTER |}.

Fixpoint insert_sorted (x : Z) (l : list Z) : list Z :=
  match l with
  | [] => [x]
  | y :: rest => if x <=? y then x :: l else y :: insert_sorted x rest
  end.

(** The delays the retry package waits before each retry: one per
    allowed retry, [minTimeout * factor ^ i] passed through the
    randomisation [jitter] the package applies, sorted ascending. *)
Definition timeouts (jitter : nat -> Z -> Z) (o : RetryOpts) : list Z :=
  fold_right insert_sorted []
    (map (fun i => jitter i (Z.max (minTimeout o) 1 * factor o ^ Z.of_nat i))
         (seq 0 (retries o))).

Definition isClientError (err : jserror) : bool :=
  match error_code err with
  | Some c => String.eqb c "ERR_UNESCAPED_CHARACTERS"
  | None => false
  end
  || String.eqb (error_message err) "Request path contains unescaped characters".

Definition is_aborted (err : jserror) : bool :=
  match error_type err with
  | Some t => String.eqb t "aborted"
  | None => false
  end.

Definition retryable (res : Response) : bool :=
  ((500 <=? status res) && (status res <? 600)) || (status res =? 429).

(** [parseInt(res.headers.get('retry-after'), 10)]. *)
Definition retryAfter (res : Response) : option Z :=
  parseInt (match headers_get "retry-after" (headers res) with
            | Some v => v
            | None => "null"
            end) 10.

(** What the run does, in order. *)
Inductive event : Type :=
| Fetch (attempt : nat)
| RetryAfterSleep (ms : Z)
| Backoff (ms : Z).

(** How one run of the function handed to [retry] ends. *)
Inductive attempt_end : Type :=
| Returns (res : Response)
| Bails (err : jserror)
| Throws (err : jserror).

(** The [catch (err)] block of the attempt. *)
Definition attempt_catch (err : jserror) : attempt_end :=
  if is_aborted err then Bails err
  else if isClientError err then Bails err
  else Throws err.

(** The function handed to [retry], given what [fetch] settled to. *)
Definition attempt (o : RetryOpts) (fetched : settled Response)
  : list event * attempt_end :=
  match fetched with
  | Fulfilled res =>
      if retryable res then
        match retryAfter res with
        | Some ra =>
            if ra =? 0 then ([], attempt_catch (ResponseError res))
            else if ra >? maxRetryAfter o then ([], Returns res)
            else ([RetryAfterSleep (ra * 1000)],
                  attempt_catch (ResponseError res))
        | None => ([], attempt_catch (ResponseError res))
        end
      else ([], Returns res)
  | Rejected err => ([], attempt_catch err)
  end.

(** The retry package's [mainError()]: the error whose message was seen
    most often, the latest one on a tie. *)
Definition count_message (m : string) (seen : list jserror) : nat :=
  List.length (filter (fun e => String.eqb (error_message e) m) seen).

Fixpoint mainError_from (seen errors : list jserror)
  (main : option jserror) (mainCount : nat) : option jserror :=
  match errors with
  | [] => main
  | error :: rest =>
      let count := S (count_message (error_message error) seen) in
      if (mainCount <=? count)%nat
      then mainError_from (seen ++ [error]) rest (Some error) count
      else mainError_from (seen ++ [error]) rest main mainCount
  end.

Definition mainError (errors : list jserror) : option jserror :=
  mainError_from [] errors None 0.

(** [retry(fn, retryOpts)]: run the attempt; on a throw, wait the next
    delay and run it again, until the delays are used up. *)
Fixpoint retry (o : RetryOpts) (fetch : nat -> settled Response)
  (delays : list Z) (n : nat) (errors : list jserror)
  : list event * settled Response :=
  let '(evs, r) := attempt o (fetch n) in
  match r with
  | Returns res => (Fetch n :: evs, Fulfilled res)
  | Bails err => (Fetch n :: evs, Rejected err)
  | Throws err =>
      let errors' := errors ++ [err] in
      match delays with
      | [] => (Fetch n :: evs,
               Rejected (or_default (mainError errors') err))
      | d :: rest =>
          let '(evs', r') := retry o fetch rest (S n) errors' in
          (Fetch n :: evs ++ Backoff d :: evs', r')
      end
  end.

(** [fetchRetry(url, opts)]: attempts are numbered from 1. *)
Definition fetchRetry (jitter : nat -> Z -> Z) (ov : RetryOverrides)
  (fetch : nat -> settled Response) : list event * settled Response :=
  let o := retryOpts ov in
  match retry o fetch (timeouts jitter o) 1 [] with
  | (evs, Rejected (ResponseError res)) => (evs, Fulfilled res)
  | done => done
  end.

(** The waits of a run between attempt [n] and the attempt after it. *)
Fixpoint until_fetch (evs : list event) : list event :=
  match evs with
  | [] => []
  | Fetch _ :: _ => []
  | e :: rest => e :: until_fetch rest
  end.

Fixpoint waits_after (n : nat) (evs : list event) : list event :=
  match evs with
  | [] => []
  | Fetch m :: rest =>
      if Nat.eqb m n then until_fetch rest else waits_after n rest
  | _ :: rest => waits_after n rest
  end.

(** Sample responses. *)
Definition busy_5s : Response :=
  {| status := 503; statusText := "Service Unavailable";
     headers := [("retry-after", "5")]; json := None |}.

Definition all_good : Response :=
  {| status := 200; statusText := "OK"; headers := [];
     json := Some {| results := Some []; featureFlags_field := None |} |}.

Definition overloaded (id : string) : Response :=
  {| status := 500; statusText := "Internal Server Error";
     headers := [("x-request-id", id)]; json := None |}.

Definition unavailable : Response :=
  {| status := 503; statusText := "Service Unavailable";
     headers := []; json := None |}.

(** A 503 answer whose [retry-after] value is a no-break space, U+00A0,
    followed by 30. *)
Definition busy_30s_after_space : Response :=
  {| status := 503; statusText := "Service Unavailable";
     headers := [("retry-after", (of_bytes [194; 160]%nat ++ "30")%string)];
     json := None |}.

Definition two_retries : RetryOverrides :=
  {| o_minTimeout := None; o_retries := Some 2%nat;
     o_factor := None; o_maxRetryAfter := None |}.

Definition econnreset : jserror :=
  JsError "Error" "read ECONNRESET" (Some "ECONNRESET") None.

(** A response that makes the attempt throw for a retry: retryable,
    not asking for a wait above the cap, and not carrying the
    client-error text as its status text. *)
Definition retried_response (o : RetryOpts) (res : Response) : Prop :=
  retryable res = true
  /\ isClientError (ResponseError res) = false
  /\ (forall ra, retryAfter res = Some ra -> ra <= maxRetryAfter o).

(** A failure of the underlying fetch with no response at all, which
    is neither an abort nor a client error. *)
Definition network_error (e : jserror) : Prop :=
  is_aborted e = false
  /\ isClientError e = false
  /\ (forall res, e <> ResponseError res).

(** The attempts of a run, by number, and the backoff delays it waited. *)
Fixpoint fetches (evs : list event) : list nat :=
  match evs with
  | [] => []
  | Fetch n :: rest => n :: fetches rest
  | _ :: rest => fetches rest
  end.

Fixpoint backoffs (evs : list event) : list Z :=
  match evs with
  | [] => []
  | Backoff d :: rest => d :: backoffs rest
  | _ :: rest => backoffs rest
  end.

(** An attempt that is retried while delays remain: it got a response
    that is retried, or failed with a network-level error. *)
Definition transient (o : RetryOpts) (s : settled Response) : Prop :=
  match s with
  | Fulfilled res => retried_response o res
  | Rejected e => network_error e
  end.

(** What the call settles to when an attempt ends the run. *)
Definition settled_of_end (r : attempt_end) : settled Response :=
  match r with
  | Returns res => Fulfilled res
  | Bails e | Throws e => Rejected e
  end.

(** The client error the source tests for by its message. *)
Definition unescaped_path : jserror :=
  JsError "TypeError" "Request path contains unescaped characters"
          (Some "ERR_UNESCAPED_CHARACTERS") None.

(** A header value that begins with a letter, as the HTTP-date form of
    [retry-after] does with the name of a day. *)
Definition starts_with_letter (v : string) : bool :=
  match v with
  | String c _ =>
      let n := Z.of_N (N_of_ascii c) in
      ((65 <=? n) && (n <=? 90)) || ((97 <=? n) && (n <=? 122))
  | EmptyString => false
  end.

End FetchRetry.

(* ================================================================== *)
(** * decoratedFetch.js: retry around timeout around fetch             *)
(* ================================================================== *)

Module DecoratedFetch.

(** [module.exports = setupRetry(setupTimeout(undici.fetch))]: the
    [fetch] of the retry loop is the timeout wrapper, and both read the
    same [opts], so every attempt runs under the same [timeout].
    [attempts timeout u fetch] holds when attempt [n] of the loop settles
    to [fetch n], the wrapped call behaving as [u n] during it. *)
Definition attempts (timeout : option Z)
  (u : nat -> FetchTimeout.underlying)
  (fetch : nat -> settled Response) : Prop :=
  forall n,
    FetchTimeout.awaited (FetchTimeout.run_call timeout (u n)) = Some (fetch n).

End DecoratedFetch.

(* ================================================================== *)
(** * The dispatch queue                                               *)
(* ================================================================== *)

Module Queue.

(** A queued item: the event and the handle of its callback. *)
Record Item : Type := {
  message : string;
  callback : nat
}.

Record Client : Type := {
  queue : list Item;
  flushAt : nat;
  flushInterval : option Z;
  (** a flush timer is pending *)
  timer : bool;
  (** the flush on the first message has been spent *)
  flushed : bool;
  enable : bool
}.

(** What a call hands to the outside: a batch given to the transport
    together with the callbacks captured for it, or a callback
    scheduled on its own. *)
Inductive effect : Type :=
| Send (batch : list string) (callbacks : list nat)
| Immediate (cb : nat).

Definition with_queue (q : list Item) (tm : bool) (c : Client) : Client :=
  {| queue := q; flushAt := flushAt c; flushInterval := flushInterval c;
     timer := tm; flushed := flushed c; enable := enable c |}.

Definition with_flushed (c : Client) : Client :=
  {| queue := queue c; flushAt := flushAt c;
     flushInterval := flushInterval c;
     timer := timer c; flushed := true; enable := enable c |}.

(** Modelled from the spec: the client constructor of index.js, which
    is not among the sources; section 6 gives [flushAt] a floor of 1
    and the test helper [createClient] sets [flushed] afterwards. *)
Definition new (flushAt0 : nat) (interval : option Z) (en fl : bool) : Client :=
  {| queue := []; flushAt := Nat.max flushAt0 1; flushInterval := interval;
     timer := false; flushed := fl; enable := en |}.

(** Modelled from the spec: [flush] of index.js, which is not among the
    sources.  Section 4.2: a disabled client or an empty buffer makes
    no network call; otherwise the oldest items, at most the batch
    size [flushAt], leave the buffer and are handed to the transport
    with their callbacks; a pending flush timer is preempted. *)
Definition flush (c : Client) : Client * list effect :=
  if negb (enable c) then (c, [])
  else
    match queue c with
    | [] => (with_queue [] false c, [])
    | _ =>
        let items := firstn (flushAt c) (queue c) in
        (with_queue (skipn (flushAt c) (queue c)) false c,
         [Send (map message items) (map callback items)])
    end.

(** Modelled from the spec: [enqueue] of index.js, which is not among
    the sources.  Section 4.2: a disabled client only schedules the
    callback; otherwise the item is appended, and a flush is triggered
    by the first message when no flush was spent yet, or by the buffer
    reaching [flushAt]; a flush timer is armed unless one is pending. *)
Definition enqueue (msg : string) (cb : nat) (c : Client)
  : Client * list effect :=
  if negb (enable c) then (c, [Immediate cb])
  else
    let c1 := with_queue (queue c ++ [{| message := msg; callback := cb |}])
                         (timer c) c in
    if negb (flushed c1) then flush (with_flushed c1)
    else
      let '(c2, effs) :=
        if (flushAt c1 <=? List.length (queue c1))%nat
        then flush c1 else (c1, []) in
      match flushInterval c2 with
      | Some _ => (with_queue (queue c2) true c2, effs)
      | None => (c2, effs)
      end.

Definition item (m : string) (cb : nat) : Item :=
  {| message := m; callback := cb |}.

(** Enqueuing several items one after the other, with no completion
    in between. *)
Fixpoint enqueue_all (items : list Item) (c : Client)
  : Client * list effect :=
  match items with
  | [] => (c, [])
  | it :: rest =>
      let '(c1, e1) := enqueue (message it) (callback it) c in
      let '(c2, e2) := enqueue_all rest c1 in
      (c2, e1 ++ e2)
  end.

(** Modelled from the spec: the completion of a batch's transport call
    (section 4.2): every captured callback is invoked with the
    outcome, in the order captured. *)
Definition done (err : option string) (e : effect)
  : list (nat * option string) :=
  match e with
  | Send _ callbacks => map (fun cb => (cb, err)) callbacks
  | Immediate cb => [(cb, None)]
  end.

End Queue.

(* ================================================================== *)
(** * Binary64 rounding, read off Stdlib's [SpecFloat]                 *)
(* ================================================================== *)

(** Auxiliary notions for reasoning about [binary_round_aux], the
    rounding that division and integer conversion of Numbers go
    through: a non-negative rational [N / D] together with the location
    of its fractional part, and a key that orders the results. *)

(** The located representation of a non-negative rational [N / D]. *)
Definition loc_of (N D : Z) : location :=
  if N mod D =? 0 then loc_Exact else loc_Inexact (2 * (N mod D) ?= D).

Definition located (N D : Z) : shr_record :=
  shr_record_of_loc (N / D) (loc_of N D).

(** [N / D] rounded to the nearest integer, ties to even. *)
Definition rne (N D : Z) : Z :=
  round_nearest_even (N / D) (loc_of N D).

(** The end of [binary_round_aux]: renormalise the rounded mantissa and
    check for overflow. *)
Definition finish (sx : bool) (M E : Z) : spec_float :=
  let '(mrs, e) := shr_fexp prec emax M E loc_Exact in
  match shr_m mrs with
  | Z0 => S754_zero sx
  | Zpos m => if e <=? emax - prec then S754_finite sx m e else S754_infinity sx
  | Zneg _ => S754_nan
  end.

(** A positive result: finite, or infinite past the largest exponent. *)
Definition out (sx : bool) (m e : Z) : spec_float :=
  if e <=? 971 then S754_finite sx (Z.to_pos m) e else S754_infinity sx.

Definition SFkey (x : spec_float) : Z * Z * Z :=
  match x with
  | S754_nan => (3, 0, 0)
  | S754_infinity true => (-2, 0, 0)
  | S754_finite true m e => (-1, - e, - Zpos m)
  | S754_zero _ => (0, 0, 0)
  | S754_finite false m e => (1, e, Zpos m)
  | S754_infinity false => (2, 0, 0)
  end.

Definition lexle (a b : Z * Z * Z) : Prop :=
  let '(a1, a2, a3) := a in
  let '(b1, b2, b3) := b in
  a1 < b1 \/ (a1 = b1 /\ (a2 < b2 \/ (a2 = b2 /\ a3 <= b3))).

Definition is_nan_sf (x : spec_float) : bool :=
  match x with S754_nan => true | _ => false end.

(** The exponent and the numerator [SFdiv_core_binary] works with. *)
Definition div_exp (mx : positive) (ex : Z) (my : positive) (ey : Z) : Z :=
  Z.min (fexp prec emax (Zpos (digits2_pos mx) + ex - (Zpos (digits2_pos my) + ey)))
        (ex - ey).

Definition div_num (mx : positive) (ex : Z) (my : positive) (ey : Z) : Z :=
  Zpos mx * 2 ^ (ex - ey - div_exp mx ex my ey).

Definition is_nonneg (x : spec_float) : bool :=
  match x with
  | S754_zero _ | S754_finite false _ _ | S754_infinity false => true
  | _ => false
  end.

Definition is_nonpos (x : spec_float) : bool :=
  match x with
  | S754_zero _ | S754_finite true _ _ | S754_infinity true => true
  | _ => false
  end.

(* ================================================================== *)
(** * Properties of the feature-flag poller                            *)
(* ================================================================== *)

Section PollerFacts.

Import Poller.
Variable net : Request -> settled Response.

Lemma request_fulfilled_ok p path meth pk d g res :
  _request net p path meth pk d g = Fulfilled res -> ok res = true.
Proof.
  unfold _request.
  destruct (net _) as [r | e]; [ | discriminate ].
  destruct (ok r) eqn:Hok; simpl; [ | discriminate ].
  intros H; injection H as <-; exact Hok.
Qed.

Lemma request_never_ClientError p path meth pk d g err :
  _request net p path meth pk d g = Rejected err ->
  instanceof_ClientError err = false.
Proof.
  unfold _request.
  destruct (net _) as [r | e].
  - destruct (ok r); simpl; [ discriminate | ].
    intros H; injection H as <-; reflexivity.
  - intros H; injection H as <-; reflexivity.
Qed.

Lemma ok_not_401 res : ok res = true -> (status res =? 401) = false.
Proof. unfold ok; intros H; apply Z.eqb_neq; lia. Qed.

(** The [try] block can only fail with an error that the [catch]
    block swallows. *)
Lemma load_body_error p p' err :
  load_body net p = (p', Rejected err) ->
  p' = p /\ instanceof_ClientError err = false.
Proof.
  unfold load_body.
  destruct (_request net p _ _ _ _ _) as [r | e] eqn:Hreq.
  - rewrite (ok_not_401 r (request_fulfilled_ok _ _ _ _ _ _ _ Hreq)).
    destruct (json r) as [js | ].
    + destruct (ok r).
      * destruct (results js); intros H; inversion H; subst; auto.
      * intros H; inversion H; subst; auto.
    + intros H; inversion H; subst; auto.
  - intros H; inversion H; subst.
    split; [ reflexivity | eapply request_never_ClientError; eassumption ].
Qed.

Lemma loadFeatureFlags_internal_fulfils p :
  snd (_loadFeatureFlags net p) = Fulfilled tt.
Proof.
  unfold _loadFeatureFlags.
  destruct (load_body net _) as [p2 [[] | err]] eqn:Hb; [ reflexivity | ].
  apply load_body_error in Hb as [_ ->]; reflexivity.
Qed.

Lemma loadFeatureFlags_fulfils p force :
  snd (loadFeatureFlags net p force) = Fulfilled tt.
Proof.
  unfold loadFeatureFlags.
  destruct (_ || _); [ apply loadFeatureFlags_internal_fulfils | reflexivity ].
Qed.

End PollerFacts.

Section PollerClaims.

Import Poller.

(** A fetch that does not end in an ok response leaves the table as it
    was, whoever asked for the load, and nothing is raised. *)
Lemma load_failure_keeps_table net p :
  (forall req res, net req = Fulfilled res -> ok res = false) ->
  _loadFeatureFlags net p
  = (set_poller (Some (pollingInterval p)) p, Fulfilled tt).
Proof.
  intros Hfail. unfold _loadFeatureFlags, load_body, _request.
  destruct (net _) as [r | e] eqn:Hn; simpl.
  - rewrite (Hfail _ _ Hn); reflexivity.
  - reflexivity.
Qed.

(** C2 (evaluation at the failing input): when the flag-listing
    endpoint answers 401, an explicit reload, [loadFeatureFlags(true)],
    or a first load raises nothing: the promise fulfils, the refresh
    timer is re-armed and the table and [loadedSuccessfullyOnce] stay as
    they were.  [_request] has already turned the non-ok response into
    a plain [Error], so the [ClientError] of [_loadFeatureFlags] is
    never thrown. *)
Theorem C2_unauthorized_reload_raises_nothing :
  forall (p : FeatureFlagsPoller) (res : Response) (forceReload : bool),
    status res = 401 ->
    forceReload = true \/ loadedSuccessfullyOnce p = false ->
    loadFeatureFlags (fun _ => Fulfilled res) p forceReload
    = (set_poller (Some (pollingInterval p)) p, Fulfilled tt).
Proof.
  intros p res forceReload H401 Hload. unfold loadFeatureFlags.
  replace (negb (loadedSuccessfullyOnce p) || forceReload) with true
    by (destruct Hload as [-> | ->]; [ rewrite orb_true_r | ]; reflexivity).
  apply load_failure_keeps_table.
  intros req r Hr; injection Hr as <-.
  unfold ok; rewrite H401; reflexivity.
Qed.

Lemma C2_unauthorized_reload_raises_nothing_witness :
  status unauthorized = 401
  /\ (true = true
      \/ loadedSuccessfullyOnce
           (new 30000 "personal" "project" "https://app.posthog.com") = false)
  /\ loadFeatureFlags (fun _ => Fulfilled unauthorized)
       (new 30000 "personal" "project" "https://app.posthog.com") true
     = (set_poller (Some 30000)
          (new 30000 "personal" "project" "https://app.posthog.com"),
        Fulfilled tt).
Proof.
  split; [ reflexivity | ]. split; [ left; reflexivity | ].
  apply (C2_unauthorized_reload_raises_nothing
           (new 30000 "personal" "project" "https://app.posthog.com")
           unauthorized true).
  - reflexivity.
  - left; reflexivity.
Defined.

(** C5 (counterexample): on a poller whose table never loaded, the call
    returns the default and the callback is not invoked at all. *)
Lemma C5_callback_skipped_counterexample :
  ~ (forall net p key distinctId defaultResult groups,
        exists p' result,
          isFeatureEnabled net p key distinctId defaultResult groups
          = (p', Fulfilled result, [(key, distinctId, result)])).
Proof.
  intros H.
  destruct (H (fun _ => Rejected (new_Error "ECONNREFUSED"))
              (new 30000 "personal" "project" "https://app.posthog.com")
              "beta" "user-1" false []) as (p' & result & Heq).
  vm_compute in Heq. discriminate Heq.
Qed.

(** C5 (amended): [isFeatureEnabled] always fulfils with a boolean; the
    callback is invoked exactly once, with (key, distinctId, result),
    when the key is found in a loaded table (local hash or remote
    decide call, its failure fallback included), and not at all when
    the table never loaded or the key is not found, where the result
    is the default. *)
Theorem C5_callback_once_when_flag_found :
  forall net p key distinctId defaultResult groups,
    exists p' result,
      p' = fst (loadFeatureFlags net p false)
      /\ isFeatureEnabled net p key distinctId defaultResult groups
         = (p', Fulfilled result,
            match lookup p' key with
            | Some _ => [(key, distinctId, result)]
            | None => []
            end)
      /\ (lookup p' key = None -> result = defaultResult).
Proof.
  intros net p key distinctId defaultResult groups.
  unfold isFeatureEnabled.
  pose proof (loadFeatureFlags_fulfils net p false) as Hload.
  destruct (loadFeatureFlags net p false) as [p1 r]; simpl in *; subst r.
  exists p1. unfold lookup.
  destruct (loadedSuccessfullyOnce p1); simpl.
  - destruct (find _ (featureFlags p1)) as [flag | ].
    + eexists; split; [ reflexivity | split; [ reflexivity | discriminate ] ].
    + exists defaultResult; auto.
  - exists defaultResult; auto.
Qed.

End PollerClaims.

(* ================================================================== *)
(** * Properties of the timeout wrapper                                *)
(* ================================================================== *)

Section TimeoutClaims.

Import FetchTimeout.

(** With a positive timeout one timer is armed and the promise is
    pending; the handle of the timer is not kept. *)
Lemma fetchTimeout_arms t :
  0 < t ->
  fetchTimeout (Some t)
  = {| outcome := Pending; timeoutId := None; armed := [(1%nat, t)] |}.
Proof.
  intros Ht. unfold fetchTimeout.
  destruct (Z.eqb_spec t 0) as [-> | _]; [ lia | ].
  destruct (Z.gtb_spec t 0); [ reflexivity | lia ].
Qed.

(** When the timer fires first, the operation fails with the timeout
    error, and a later answer of the underlying call is ignored. *)
Lemma timer_first_fails t res :
  0 < t ->
  outcome (on_timer 1 (fetchTimeout (Some t))) = Failed timeout_error
  /\ outcome (on_response res (on_timer 1 (fetchTimeout (Some t))))
     = Failed timeout_error.
Proof.
  intros Ht. rewrite (fetchTimeout_arms t Ht). split; reflexivity.
Qed.

(** C6 (evaluation at the failing input): with a positive timeout,
    once the underlying call has settled first (resolved or rejected)
    the timer is still armed: [timeoutId] was never assigned, so
    neither handler reaches its [clearTimeout]. *)
Theorem C6_timer_left_armed_on_settle :
  forall (t : Z) (res : Response) (err : jserror),
    0 < t ->
    on_response res (fetchTimeout (Some t))
    = {| outcome := Resolved res; timeoutId := None; armed := [(1%nat, t)] |}
    /\ on_error err (fetchTimeout (Some t))
       = {| outcome := Failed err; timeoutId := None; armed := [(1%nat, t)] |}.
Proof.
  intros t res err Ht. rewrite (fetchTimeout_arms t Ht). split; reflexivity.
Qed.

Lemma C6_timer_left_armed_on_settle_witness :
  0 < 500
  /\ on_response unauthorized (fetchTimeout (Some 500))
     = {| outcome := Resolved unauthorized; timeoutId := None;
          armed := [(1%nat, 500)] |}
  /\ on_error timeout_error (fetchTimeout (Some 500))
     = {| outcome := Failed timeout_error; timeoutId := None;
          armed := [(1%nat, 500)] |}.
Proof.
  split; [ lia | ].
  apply (C6_timer_left_armed_on_settle 500 unauthorized timeout_error).
  lia.
Defined.

End TimeoutClaims.

(* ================================================================== *)
(** * Properties of the dispatch queue                                 *)
(* ================================================================== *)

Section QueueClaims.

Import Queue.


(** Below the threshold, on a client whose first flush is spent,
    enqueuing only appends. *)
Lemma enqueue_all_below_threshold items :
  forall c,
    enable c = true -> flushed c = true ->
    (List.length (queue c) + List.length items < flushAt c)%nat ->
    enqueue_all items c
    = (with_queue (queue c ++ items)
         (match items, flushInterval c with
          | _ :: _, Some _ => true
          | _, _ => timer c
          end) c, []).
Proof.
  induction items as [ | it rest IH]; intros c Hen Hfl Hlen.
  - simpl. rewrite app_nil_r. destruct c; reflexivity.
  - simpl in Hlen. cbn [enqueue_all]. unfold enqueue.
    rewrite Hen. cbn [negb with_queue flushed queue flushAt flushInterval].
    rewrite Hfl. cbn [negb].
    rewrite length_app. cbn [List.length].
    destruct (Nat.leb_spec (flushAt c) (List.length (queue c) + 1)); [ lia | ].
    destruct it as [m cb]. cbn [message callback].
    cbn [with_queue flushInterval queue].
    destruct (flushInterval c) eqn:Hint;
      (rewrite IH;
       cbn [with_queue enable flushed queue flushAt flushInterval timer];
       auto; [ | rewrite length_app; simpl; lia ]);
      rewrite ?Hint, <- app_assoc; simpl; destruct rest; reflexivity.
Qed.

Lemma enqueue_all_app a b :
  forall c,
    enqueue_all (a ++ b) c
    = (let '(c1, e1) := enqueue_all a c in
       let '(c2, e2) := enqueue_all b c1 in
       (c2, e1 ++ e2)).
Proof.
  induction a as [ | it a IH]; intros c; simpl.
  - destruct (enqueue_all b c); reflexivity.
  - destruct (enqueue (message it) (callback it) c) as [c1 e1].
    rewrite IH.
    destruct (enqueue_all a c1) as [c2 e2].
    destruct (enqueue_all b c2) as [c3 e3].
    rewrite app_assoc; reflexivity.
Qed.

(** The enqueue that brings the buffer to the threshold flushes the
    whole buffer as one batch. *)
Lemma enqueue_reaching_threshold c m cb :
  enable c = true -> flushed c = true ->
  S (List.length (queue c)) = flushAt c ->
  enqueue m cb c
  = (with_queue [] (match flushInterval c with Some _ => true | None => false end) c,
     [Send (map message (queue c ++ [item m cb]))
           (map callback (queue c ++ [item m cb]))]).
Proof.
  intros Hen Hfl Hlen. unfold enqueue, flush.
  rewrite Hen. cbn [negb with_queue flushed queue flushAt enable].
  rewrite Hfl, Hen. cbn [negb].
  rewrite length_app. cbn [List.length].
  destruct (Nat.leb_spec (flushAt c) (List.length (queue c) + 1)); [ | lia ].
  fold (item m cb).
  assert (Hall : List.length (queue c ++ [item m cb]) = flushAt c)
    by (rewrite length_app; simpl; lia).
  destruct (queue c ++ [item m cb]) as [ | x q] eqn:Hq.
  - destruct (queue c); discriminate Hq.
  - rewrite <- Hall, firstn_all, skipn_all.
    cbn [with_queue flushInterval queue flushAt timer flushed enable].
    destruct (flushInterval c); reflexivity.
Qed.

(** C8 (counterexample): on a client that has not spent its flush on
    the first message, with threshold 2, enqueuing two items flushes
    once, and the batch holds the first item only. *)
Lemma C8_first_message_flush_counterexample :
  ~ (forall c items,
        enable c = true -> queue c = [] ->
        List.length items = flushAt c ->
        exists c1,
          enqueue_all items c
          = (c1, [Send (map message items) (map callback items)])).
Proof.
  intros H.
  destruct (H (new 2 None true false) [item "a" 1; item "b" 2])
    as (c1 & Heq); try reflexivity.
  vm_compute in Heq. discriminate Heq.
Qed.

(** C8 (amended): on an enabled client whose flush on the first message
    is spent ([flushed] is true, as the test helper sets it), starting
    from an empty buffer, enqueuing [flushAt] items triggers exactly
    one flush, whose batch is these items in insertion order; items
    enqueued afterwards, fewer than [flushAt], trigger no flush and
    stay in the buffer; the callbacks of the batch fire in enqueue
    order. *)
Theorem C8_threshold_flush :
  forall (c : Client) (items more : list Item),
    enable c = true -> flushed c = true -> queue c = [] ->
    List.length items = flushAt c ->
    (0 < List.length items)%nat ->
    (List.length more < flushAt c)%nat ->
    exists c1 c2,
      enqueue_all items c
      = (c1, [Send (map message items) (map callback items)])
      /\ queue c1 = []
      /\ enqueue_all more c1 = (c2, [])
      /\ queue c2 = more
      /\ forall err,
           done err (Send (map message items) (map callback items))
           = map (fun it => (callback it, err)) items.
Proof.
  intros c items more Hen Hfl Hq Hlen Hpos Hmore.
  destruct (exists_last (l := items)) as (pre & [m cb] & ->).
  { intros ->; simpl in Hpos; lia. }
  rewrite length_app in Hlen; simpl in Hlen.
  rewrite enqueue_all_app.
  rewrite enqueue_all_below_threshold by (auto; rewrite Hq; simpl; lia).
  rewrite Hq; simpl app.
  cbn [enqueue_all message callback].
  rewrite enqueue_reaching_threshold;
    cbn [with_queue enable flushed queue flushAt flushInterval timer];
    auto; [ | lia ].
  simpl app. fold (item m cb).
  eexists; eexists; split; [ reflexivity | ].
  split; [ reflexivity | ].
  rewrite enqueue_all_below_threshold;
    cbn [with_queue enable flushed queue flushAt flushInterval timer];
    auto.
  split; [ reflexivity | ].
  split; [ reflexivity | ].
  intros err; simpl. apply map_map.
Qed.

Lemma C8_threshold_flush_witness :
  exists c1 c2,
    enqueue_all [item "a" 1; item "b" 2] (new 2 None true true)
    = (c1, [Send ["a"; "b"] [1%nat; 2%nat]])
    /\ queue c1 = []
    /\ enqueue_all [item "c" 3] c1 = (c2, [])
    /\ queue c2 = [item "c" 3]
    /\ forall err,
         done err (Send ["a"; "b"] [1%nat; 2%nat])
         = map (fun it => (callback it, err)) [item "a" 1; item "b" 2].
Proof.
  apply (C8_threshold_flush (new 2 None true true)
           [item "a" 1; item "b" 2] [item "c" 3]);
    try reflexivity; simpl; lia.
Defined.

End QueueClaims.

(* ================================================================== *)
(** * Properties of the retrying transport                             *)
(* ================================================================== *)

Section RetryClaims.

Import FetchRetry.

Lemma insert_sorted_length x l :
  List.length (insert_sorted x l) = S (List.length l).
Proof.
  induction l as [ | y l IH]; simpl; [ reflexivity | ].
  destruct (x <=? y); simpl; congruence.
Qed.

(** One delay per allowed retry. *)
Lemma timeouts_length jitter o :
  List.length (timeouts jitter o) = retries o.
Proof.
  unfold timeouts.
  transitivity (List.length
    (map (fun i => jitter i (Z.max (minTimeout o) 1 * factor o ^ Z.of_nat i))
         (seq 0 (retries o)))).
  - induction (map _ (seq 0 (retries o))) as [ | x l IH]; simpl; [ reflexivity | ].
    rewrite insert_sorted_length; congruence.
  - rewrite length_map. apply length_seq.
Qed.

(** The delays before randomisation, as the source comments them. *)
Example timeouts_default :
  timeouts (fun _ t => t) (retryOpts no_overrides) = [10; 60; 360; 2160; 12960].
Proof. reflexivity. Qed.

(** ** The [retry-after] header *)

(** [parseInt] strips every leading white space character, the ones
    beyond ASCII included, and reads on after it. *)
Lemma skip_whitespace_encoding w s :
  In w whitespace_encodings -> skip_whitespace (w ++ s) = skip_whitespace s.
Proof.
  intros H. cbv [whitespace_encodings of_bytes map string_of_list_ascii] in H.
  repeat (destruct H as [<- | H]; [ reflexivity | ]). contradiction.
Qed.

Lemma parseInt_strips_whitespace w s radix :
  In w whitespace_encodings -> parseInt (w ++ s) radix = parseInt s radix.
Proof.
  intros H. unfold parseInt. rewrite (skip_whitespace_encoding w s H).
  reflexivity.
Qed.

(** A string whose first byte is an ASCII character other than white
    space is read from its start. *)
Lemma skip_whitespace_ascii c s :
  is_whitespace c = false -> Z.of_N (N_of_ascii c) < 0xC2 ->
  skip_whitespace (String c s) = String c s.
Proof.
  intros Hw Hc. cbn [skip_whitespace]. rewrite Hw.
  destruct (Z.ltb_spec (Z.of_N (N_of_ascii c)) 0xC2); [ reflexivity | lia ].
Qed.

(** Characters that are no white space of ECMAScript, U+0085, U+180E
    and U+200B, are not stripped. *)
Example parseInt_keeps_other_characters :
  map (fun w => parseInt (of_bytes w ++ "30") 10)
      [[194; 133]; [225; 160; 142]; [226; 128; 139]]%nat
  = [None; None; None].
Proof. reflexivity. Qed.

(** A [retry-after] value of 30 behind a no-break space is read as 30:
    above the default cap, the response is returned at once and is no
    response that is retried. *)
Example retry_after_behind_space :
  retryAfter busy_30s_after_space = Some 30
  /\ attempt (retryOpts no_overrides) (Fulfilled busy_30s_after_space)
     = ([], Returns busy_30s_after_space)
  /\ ~ retried_response (retryOpts no_overrides) busy_30s_after_space.
Proof.
  split; [ reflexivity | ]. split; [ reflexivity | ].
  intros (_ & _ & Hcap). specialize (Hcap 30 eq_refl).
  vm_compute in Hcap. apply Hcap; reflexivity.
Qed.

(** A retryable response that asks for a wait within the cap, and whose
    status text is not the client-error text, makes the attempt sleep
    and throw. *)
Lemma attempt_retry_after o res ra :
  retryable res = true -> retryAfter res = Some ra -> ra <> 0 ->
  ra <= maxRetryAfter o ->
  isClientError (ResponseError res) = false ->
  attempt o (Fulfilled res)
  = ([RetryAfterSleep (ra * 1000)], Throws (ResponseError res)).
Proof.
  intros Hr Hra Hnz Hle Hce. unfold attempt, attempt_catch.
  rewrite Hr, Hra, Hce.
  destruct (Z.eqb_spec ra 0); [ contradiction | ].
  destruct (Z.gtb_spec ra (maxRetryAfter o)); [ lia | ].
  reflexivity.
Qed.

(** A retryable response that asks for a wait above the cap ends the
    attempt, and the run, with that response. *)
Lemma attempt_over_cap o res ra :
  retryable res = true -> retryAfter res = Some ra -> ra <> 0 ->
  maxRetryAfter o < ra ->
  attempt o (Fulfilled res) = ([], Returns res).
Proof.
  intros Hr Hra Hnz Hlt. unfold attempt.
  rewrite Hr, Hra.
  destruct (Z.eqb_spec ra 0); [ contradiction | ].
  destruct (Z.gtb_spec ra (maxRetryAfter o)); [ reflexivity | lia ].
Qed.

(** C3 (counterexample): with the default options and no randomisation,
    a 503 answer carrying [retry-after: 5] is followed by the five
    seconds of wait and then by the first backoff delay as well. *)
Lemma C3_backoff_still_waited_counterexample :
  ~ (forall jitter ov fetch res ra,
        fetch 1%nat = Fulfilled res ->
        retryable res = true -> retryAfter res = Some ra -> ra <> 0 ->
        ra <= maxRetryAfter (retryOpts ov) ->
        waits_after 1 (fst (fetchRetry jitter ov fetch))
        = [RetryAfterSleep (ra * 1000)]).
Proof.
  intros H.
  specialize (H (fun _ t => t) no_overrides
                (fun n => Fulfilled (if (n =? 1)%nat then busy_5s else all_good))
                busy_5s 5).
  vm_compute in H.
  assert (Heq : [RetryAfterSleep 5000; Backoff 10] = [RetryAfterSleep 5000]).
  { apply H; try reflexivity; discriminate. }
  discriminate Heq.
Qed.

(** C3 (amended): when an attempt yields a retryable response whose
    retry-after header parses as a non-zero integer: above
    [maxRetryAfter] the response is returned as it is and no further
    attempt is made; otherwise, unless its status text is the
    client-error text, the attempt first waits that many seconds and is
    then retried like any failed attempt: if a retry remains, the
    computed backoff delay is waited after the retry-after wait and
    before the next attempt; if none remains, the run ends after the
    wait. *)
Theorem C3_retry_after_honoured :
  forall o fetch delays n errors res ra,
    fetch n = Fulfilled res ->
    retryable res = true -> retryAfter res = Some ra -> ra <> 0 ->
    (maxRetryAfter o < ra ->
     retry o fetch delays n errors = ([Fetch n], Fulfilled res))
    /\ (ra <= maxRetryAfter o ->
        isClientError (ResponseError res) = false ->
        match delays with
        | d :: rest =>
            retry o fetch delays n errors
            = (Fetch n :: RetryAfterSleep (ra * 1000) :: Backoff d
                 :: fst (retry o fetch rest (S n) (errors ++ [ResponseError res])),
               snd (retry o fetch rest (S n) (errors ++ [ResponseError res])))
        | [] =>
            retry o fetch delays n errors
            = ([Fetch n; RetryAfterSleep (ra * 1000)],
               Rejected (or_default
                           (mainError (errors ++ [ResponseError res]))
                           (ResponseError res)))
        end).
Proof.
  intros o fetch delays n errors res ra Hf Hr Hra Hnz. split.
  - intros Hlt. destruct delays; cbn [retry];
      rewrite Hf, (attempt_over_cap o res ra) by assumption; reflexivity.
  - intros Hle Hce. destruct delays as [ | d rest]; cbn [retry];
      rewrite Hf, (attempt_retry_after o res ra) by assumption.
    + reflexivity.
    + destruct (retry o fetch rest (S n) _); reflexivity.
Qed.

Lemma C3_retry_after_honoured_witness :
  (maxRetryAfter (retryOpts no_overrides) < 5 ->
   retry (retryOpts no_overrides)
     (fun n => Fulfilled (if (n =? 1)%nat then busy_5s else all_good))
     [10; 60] 1 []
   = ([Fetch 1], Fulfilled busy_5s))
  /\ (5 <= maxRetryAfter (retryOpts no_overrides) ->
      isClientError (ResponseError busy_5s) = false ->
      retry (retryOpts no_overrides)
        (fun n => Fulfilled (if (n =? 1)%nat then busy_5s else all_good))
        [10; 60] 1 []
      = ([Fetch 1; RetryAfterSleep 5000; Backoff 10; Fetch 2],
         Fulfilled all_good)).
Proof.
  apply (C3_retry_after_honoured (retryOpts no_overrides)
           (fun n => Fulfilled (if (n =? 1)%nat then busy_5s else all_good))
           [10; 60] 1%nat [] busy_5s 5);
    try reflexivity; discriminate.
Defined.

(** ** Exhausting the retries *)

Lemma last_cons_default {A : Type} (l : list A) :
  forall a d, last (a :: l) d = last l a.
Proof.
  induction l as [ | b l IH]; intros a d; [ reflexivity | ].
  change (last (a :: b :: l) d) with (last (b :: l) d).
  rewrite !IH; reflexivity.
Qed.

Lemma count_message_all m seen :
  (forall e, In e seen -> error_message e = m) ->
  count_message m seen = List.length seen.
Proof.
  unfold count_message. induction seen as [ | e seen IH]; intros Hall; simpl.
  - reflexivity.
  - rewrite (Hall e (or_introl eq_refl)), String.eqb_refl. simpl.
    rewrite IH; [ reflexivity | ]. intros e' He'; apply Hall; right; exact He'.
Qed.

(** When every error carries the same message, the main error is the
    last one. *)
Lemma mainError_from_same_message m errors :
  forall seen main mainCount,
    (forall e, In e (seen ++ errors) -> error_message e = m) ->
    (mainCount <= S (List.length seen))%nat ->
    mainError_from seen errors main mainCount
    = match errors with
      | [] => main
      | e :: rest => Some (last rest e)
      end.
Proof.
  induction errors as [ | e rest IH]; intros seen main mainCount Hall Hcnt.
  - reflexivity.
  - cbn [mainError_from].
    rewrite (Hall e) by (apply in_or_app; right; left; reflexivity).
    rewrite count_message_all
      by (intros e' He'; apply Hall, in_or_app; left; exact He').
    destruct (Nat.leb_spec mainCount (S (List.length seen))); [ | lia ].
    rewrite IH.
    + destruct rest as [ | x rest]; [ reflexivity | ].
      rewrite last_cons_default; reflexivity.
    + intros e' He'. apply Hall. rewrite <- app_assoc in He'. exact He'.
    + rewrite length_app; simpl; lia.
Qed.

Lemma mainError_same_message m e rest :
  (forall e', In e' (e :: rest) -> error_message e' = m) ->
  mainError (e :: rest) = Some (last rest e).
Proof.
  intros Hall. unfold mainError.
  rewrite (mainError_from_same_message m (e :: rest)); auto.
Qed.

(** The main error is one of the errors seen. *)
Lemma mainError_from_In errors :
  forall seen main mainCount e,
    mainError_from seen errors main mainCount = Some e ->
    main = Some e \/ In e errors.
Proof.
  induction errors as [ | x rest IH]; intros seen main mainCount e H.
  - left; exact H.
  - cbn [mainError_from] in H.
    destruct (_ <=? _)%nat; apply IH in H as [H | H].
    + injection H as ->; right; left; reflexivity.
    + right; right; exact H.
    + left; exact H.
    + right; right; exact H.
Qed.

Lemma main_or_default_In errors d :
  In d errors -> In (or_default (mainError errors) d) errors.
Proof.
  intros Hd. unfold mainError.
  destruct (mainError_from [] errors None 0) as [e | ] eqn:H; simpl; [ | exact Hd ].
  apply mainError_from_In in H as [H | H]; [ discriminate | exact H ].
Qed.

(** A run whose attempts all throw makes one attempt more than it has
    delays and is rejected with the main error. *)
Lemma retry_all_throw o fetch delays :
  forall n errors es d,
    List.length es = S (List.length delays) ->
    (forall k, (k < List.length es)%nat ->
               snd (attempt o (fetch (n + k)%nat)) = Throws (nth k es d)) ->
    snd (retry o fetch delays n errors)
    = Rejected (or_default (mainError (errors ++ es)) (last es d)).
Proof.
  induction delays as [ | t rest IH]; intros n errors es d Hlen Hall.
  - destruct es as [ | e [ | ? ?]]; try discriminate Hlen.
    specialize (Hall 0%nat (Nat.lt_0_succ _)).
    rewrite Nat.add_0_r in Hall. cbn [retry].
    destruct (attempt o (fetch n)) as [evs r]; simpl in Hall; subst r.
    reflexivity.
  - destruct es as [ | e es]; [ discriminate Hlen | ].
    pose proof (Hall 0%nat (Nat.lt_0_succ _)) as H0.
    rewrite Nat.add_0_r in H0. cbn [retry].
    destruct (attempt o (fetch n)) as [evs r]; simpl in H0; subst r.
    specialize (IH (S n) (errors ++ [e]) es e).
    destruct (retry o fetch rest (S n) (errors ++ [e])) as [evs' r'].
    simpl in IH |- *. rewrite IH.
    + rewrite <- app_assoc. simpl.
      destruct es as [ | x es']; [ discriminate Hlen | ].
      rewrite (last_cons_default es' x e), (last_cons_default es' x d).
      reflexivity.
    + simpl in Hlen; lia.
    + intros k Hk. specialize (Hall (S k)).
      rewrite Nat.add_succ_r in Hall. simpl in Hall |- *.
      rewrite (nth_indep es e d Hk). apply Hall. lia.
Qed.

Lemma attempt_retried o res :
  retried_response o res ->
  snd (attempt o (Fulfilled res)) = Throws (ResponseError res).
Proof.
  intros (Hr & Hce & Hcap). unfold attempt, attempt_catch.
  rewrite Hr, Hce.
  destruct (retryAfter res) as [ra | ]; [ | reflexivity ].
  specialize (Hcap ra eq_refl).
  destruct (ra =? 0); [ reflexivity | ].
  destruct (Z.gtb_spec ra (maxRetryAfter o)); [ lia | reflexivity ].
Qed.

Lemma attempt_network_error o e :
  network_error e -> snd (attempt o (Rejected e)) = Throws e.
Proof.
  intros (Ha & Hce & _). unfold attempt, attempt_catch.
  rewrite Ha, Hce; reflexivity.
Qed.

Lemma last_In {A : Type} (l : list A) (a : A) : In (last l a) (a :: l).
Proof.
  revert a; induction l as [ | b l IH]; intros a; [ left; reflexivity | ].
  right. rewrite last_cons_default. apply IH.
Qed.

(** C4 (counterexample): with two retries, two 500 answers followed by a
    503 answer end the run with the second 500 answer, which is not the
    last response received. *)
Lemma C4_main_error_not_last_counterexample :
  ~ (forall jitter ov fetch rs d,
        List.length rs = S (retries (retryOpts ov)) ->
        (forall k, (k < List.length rs)%nat ->
                   fetch (S k) = Fulfilled (nth k rs d)
                   /\ retryable (nth k rs d) = true) ->
        snd (fetchRetry jitter ov fetch) = Fulfilled (last rs d)).
Proof.
  intros H.
  specialize (H (fun _ t => t) two_retries
                (fun n => Fulfilled
                            (nth (n - 1) [overloaded "1"; overloaded "2"; unavailable]
                                 unavailable))
                [overloaded "1"; overloaded "2"; unavailable] unavailable
                eq_refl).
  assert (Heq : Fulfilled (overloaded "2") = Fulfilled unavailable).
  { apply H. intros [ | [ | [ | k]]] Hk; simpl in Hk; try lia;
      split; reflexivity. }
  discriminate Heq.
Qed.

(** C4 (amended): if every attempt up to the retry limit yields a
    response that is retried, the caller gets one of the responses
    received and no error: the response of the retry package's main
    error, that is the latest response among those whose status text
    came most often, which is the last response received whenever all
    the attempts carry the same status text.  If every attempt fails
    with a network-level error, the call fails with one of these
    errors, the main one, which is the last error whenever all carry
    the same message. *)
Theorem C4_exhausted_retries :
  forall jitter ov fetch,
    (forall rs d,
        List.length rs = S (retries (retryOpts ov)) ->
        (forall k, (k < List.length rs)%nat ->
                   fetch (S k) = Fulfilled (nth k rs d)
                   /\ retried_response (retryOpts ov) (nth k rs d)) ->
        exists r,
          In r rs
          /\ snd (fetchRetry jitter ov fetch) = Fulfilled r
          /\ ResponseError r
             = or_default (mainError (map ResponseError rs))
                          (ResponseError (last rs d))
          /\ ((forall r', In r' rs -> statusText r' = statusText (last rs d)) ->
              r = last rs d))
    /\ (forall es d,
           List.length es = S (retries (retryOpts ov)) ->
           (forall k, (k < List.length es)%nat ->
                      fetch (S k) = Rejected (nth k es d)
                      /\ network_error (nth k es d)) ->
           exists e,
             In e es
             /\ snd (fetchRetry jitter ov fetch) = Rejected e
             /\ e = or_default (mainError es) (last es d)
             /\ ((forall e', In e' es ->
                            error_message e' = error_message (last es d)) ->
                 e = last es d)).
Proof.
  intros jitter ov fetch. split.
  - intros rs d Hlen Hall.
    assert (Hrun :
      snd (retry (retryOpts ov) fetch (timeouts jitter (retryOpts ov)) 1 [])
      = Rejected (or_default (mainError (map ResponseError rs))
                             (last (map ResponseError rs) (ResponseError d)))).
    { apply (retry_all_throw (retryOpts ov) fetch _ 1%nat [] (map ResponseError rs)).
      - rewrite length_map, timeouts_length; exact Hlen.
      - intros k Hk. rewrite length_map in Hk.
        destruct (Hall k Hk) as [Hf Hret].
        change (1 + k)%nat with (S k). rewrite Hf.
        rewrite (map_nth ResponseError). apply attempt_retried; exact Hret. }
    destruct rs as [ | r0 rs0]; [ discriminate Hlen | ].
    assert (Hlast : last (map ResponseError (r0 :: rs0)) (ResponseError d)
                    = ResponseError (last (r0 :: rs0) d)).
    { clear. generalize (r0 :: rs0) as l. induction l as [ | a l IH]; [ reflexivity | ].
      destruct l; [ reflexivity | ]. exact IH. }
    rewrite Hlast in Hrun.
    assert (Hin : In (or_default (mainError (map ResponseError (r0 :: rs0)))
                                 (ResponseError (last (r0 :: rs0) d)))
                     (map ResponseError (r0 :: rs0))).
    { apply main_or_default_In, in_map.
      rewrite last_cons_default. apply last_In. }
    apply in_map_iff in Hin as (r & Hr & Hrin).
    exists r. split; [ exact Hrin | ].
    unfold fetchRetry.
    destruct (retry _ fetch _ 1 []) as [evs res]; cbn [snd] in Hrun; subst res.
    cbv beta iota. rewrite <- Hr. split; [ reflexivity | ].
    split; [ reflexivity | ].
    intros Hsame.
    cbn [map] in Hr, Hlast.
    rewrite (mainError_same_message (statusText (last (r0 :: rs0) d))) in Hr.
    + cbn [or_default] in Hr.
      rewrite <- (last_cons_default _ _ (ResponseError d)), Hlast in Hr.
      injection Hr as ->. reflexivity.
    + intros e' He'. change (ResponseError r0 :: map ResponseError rs0)
        with (map ResponseError (r0 :: rs0)) in He'.
      apply in_map_iff in He' as (r' & <- & Hr'). simpl. apply Hsame; exact Hr'.
  - intros es d Hlen Hall.
    assert (Hrun :
      snd (retry (retryOpts ov) fetch (timeouts jitter (retryOpts ov)) 1 [])
      = Rejected (or_default (mainError es) (last es d))).
    { apply (retry_all_throw (retryOpts ov) fetch _ 1%nat [] es).
      - rewrite timeouts_length; exact Hlen.
      - intros k Hk. destruct (Hall k Hk) as [Hf Hnet].
        change (1 + k)%nat with (S k). rewrite Hf.
        apply attempt_network_error; exact Hnet. }
    destruct es as [ | e0 es0]; [ discriminate Hlen | ].
    assert (Hin : In (or_default (mainError (e0 :: es0)) (last (e0 :: es0) d))
                     (e0 :: es0)).
    { apply main_or_default_In. rewrite last_cons_default. apply last_In. }
    exists (or_default (mainError (e0 :: es0)) (last (e0 :: es0) d)).
    split; [ exact Hin | ].
    split.
    + unfold fetchRetry.
      destruct (retry _ fetch _ 1 []) as [evs res]; cbn [snd] in Hrun; subst res.
      cbv beta iota.
      apply In_nth with (d := d) in Hin as (k & Hk & Hnth).
      destruct (Hall k Hk) as [_ (_ & _ & Hnot)].
      rewrite Hnth in Hnot.
      destruct (or_default _ _) as [res | | ]; [ | reflexivity | reflexivity ].
      exfalso; exact (Hnot res eq_refl).
    + split; [ reflexivity | ].
      intros Hsame.
      rewrite (mainError_same_message (error_message (last (e0 :: es0) d)))
        by exact Hsame.
      cbn [or_default]. symmetry; apply last_cons_default.
Qed.

Lemma C4_exhausted_retries_witness :
  (exists r,
      In r [overloaded "1"; overloaded "2"; overloaded "3"]
      /\ snd (fetchRetry (fun _ t => t) two_retries
                (fun n => Fulfilled
                   (nth (n - 1) [overloaded "1"; overloaded "2"; overloaded "3"]
                        unavailable)))
         = Fulfilled r
      /\ ResponseError r
         = or_default
             (mainError (map ResponseError
                           [overloaded "1"; overloaded "2"; overloaded "3"]))
             (ResponseError (overloaded "3"))
      /\ ((forall r', In r' [overloaded "1"; overloaded "2"; overloaded "3"] ->
                      statusText r' = "Internal Server Error") ->
          r = overloaded "3"))
  /\ (exists e,
         In e [econnreset; econnreset; econnreset]
         /\ snd (fetchRetry (fun _ t => t) two_retries
                   (fun _ => Rejected econnreset))
            = Rejected e
         /\ e = or_default (mainError [econnreset; econnreset; econnreset])
                           econnreset
         /\ ((forall e', In e' [econnreset; econnreset; econnreset] ->
                        error_message e' = "read ECONNRESET") ->
             e = econnreset)).
Proof.
  split.
  - apply (proj1 (C4_exhausted_retries (fun _ t => t) two_retries
                    (fun n => Fulfilled
                       (nth (n - 1)
                            [overloaded "1"; overloaded "2"; overloaded "3"]
                            unavailable)))
                 [overloaded "1"; overloaded "2"; overloaded "3"] unavailable).
    + reflexivity.
    + intros [ | [ | [ | k]]] Hk; simpl in Hk; try lia;
        (split; [ reflexivity | ]);
        (split; [ reflexivity | split; [ reflexivity | discriminate ] ]).
  - apply (proj2 (C4_exhausted_retries (fun _ t => t) two_retries
                    (fun _ => Rejected econnreset))
                 [econnreset; econnreset; econnreset] econnreset).
    + reflexivity.
    + intros [ | [ | [ | k]]] Hk; simpl in Hk; try lia;
        (split; [ reflexivity | ]);
        (split; [ reflexivity | split; [ reflexivity | discriminate ] ]).
Defined.

End RetryClaims.

(* ================================================================== *)
(** * Properties of binary64 rounding                                  *)
(* ================================================================== *)

Section Binary64Facts.

Lemma new_location_loc_of N D :
  0 < D -> new_location D (N mod D) = loc_of N D.
Proof.
  intros HD. unfold new_location, new_location_even, new_location_odd, loc_of.
  pose proof (Z.mod_pos_bound N D HD) as Hr.
  destruct (Z.even D) eqn:Hev; [ reflexivity | ].
  destruct (N mod D =? 0); [ reflexivity | ]. f_equal.
  assert (Hodd : Z.odd D = true) by (rewrite <- Z.negb_even, Hev; reflexivity).
  apply Z.odd_spec in Hodd as [k Hk].
  destruct (Z.compare_spec (2 * (N mod D) + 1) D);
    destruct (Z.compare_spec (2 * (N mod D)) D); try reflexivity; lia.
Qed.

Lemma shr_1_spec m r s :
  0 <= m ->
  shr_1 {| shr_m := m; shr_r := r; shr_s := s |}
  = {| shr_m := m / 2; shr_r := Z.odd m; shr_s := r || s |}.
Proof.
  intros Hm. rewrite <- Z.div2_div.
  destruct m as [ | p | p]; [ reflexivity | | lia ].
  destruct p; reflexivity.
Qed.

Lemma located_shr_1 N D :
  0 <= N -> 0 < D -> shr_1 (located N D) = located N (2 * D).
Proof.
  intros HN HD. unfold located, loc_of.
  assert (Hq : N / (2 * D) = N / D / 2)
    by (rewrite (Z.mul_comm 2 D), Z.div_div by lia; reflexivity).
  assert (Hr : N mod (2 * D) = N mod D + D * ((N / D) mod 2))
    by (rewrite (Z.mul_comm 2 D); apply Z.rem_mul_r; lia).
  rewrite Hq, Hr, Zmod_odd.
  pose proof (Z.mod_pos_bound N D HD) as Hb.
  assert (Hq0 : 0 <= N / D) by (apply Z.div_pos; lia).
  destruct (Z.eqb_spec (N mod D) 0) as [H0 | H0].
  - rewrite H0. cbn [shr_record_of_loc]. rewrite shr_1_spec by exact Hq0.
    destruct (Z.odd (N / D)).
    + destruct (Z.eqb_spec (0 + D * 1) 0); [ lia | ].
      destruct (Z.compare_spec (2 * (0 + D * 1)) (2 * D)); try lia. reflexivity.
    + destruct (Z.eqb_spec (0 + D * 0) 0); [ | lia ]. reflexivity.
  - assert (Hs : forall c, shr_1 (shr_record_of_loc (N / D) (loc_Inexact c))
                      = {| shr_m := N / D / 2; shr_r := Z.odd (N / D); shr_s := true |}).
    { intros c. destruct c; cbn [shr_record_of_loc]; rewrite shr_1_spec by exact Hq0;
        reflexivity. }
    rewrite Hs.
    destruct (Z.odd (N / D)).
    + destruct (Z.eqb_spec (N mod D + D * 1) 0); [ lia | ].
      destruct (Z.compare_spec (2 * (N mod D + D * 1)) (2 * D)); try lia. reflexivity.
    + destruct (Z.eqb_spec (N mod D + D * 0) 0); [ lia | ].
      destruct (Z.compare_spec (2 * (N mod D + D * 0)) (2 * D)); try lia. reflexivity.
Qed.

Lemma located_iter_shr p :
  forall N D,
    0 <= N -> 0 < D ->
    iter_pos shr_1 p (located N D) = located N (D * 2 ^ Zpos p).
Proof.
  induction p as [p IH | p IH | ]; intros N D HN HD; cbn [iter_pos].
  - rewrite located_shr_1, !IH by lia. f_equal.
    rewrite (Pos2Z.inj_xI p), Z.pow_add_r, Z.pow_mul_r by lia.
    change (2 ^ 2) with (2 * 2). change (2 ^ 1) with 2.
    rewrite Z.pow_mul_l. ring.
  - rewrite !IH by lia. f_equal.
    rewrite (Pos2Z.inj_xO p), Z.pow_mul_r by lia.
    change (2 ^ 2) with (2 * 2).
    rewrite Z.pow_mul_l. ring.
  - rewrite located_shr_1 by lia. f_equal. change (2 ^ 1) with 2. ring.
Qed.

Lemma located_shr N D e n :
  0 <= N -> 0 < D ->
  shr (located N D) e n
  = (located N (D * 2 ^ Z.max n 0), e + Z.max n 0).
Proof.
  intros HN HD. unfold shr. destruct n as [ | p | p].
  - change (Z.max 0 0) with 0. rewrite Z.pow_0_r, Z.mul_1_r, Z.add_0_r. reflexivity.
  - rewrite located_iter_shr by assumption.
    rewrite Z.max_l by lia. reflexivity.
  - rewrite Z.max_r by lia. rewrite Z.pow_0_r, Z.mul_1_r, Z.add_0_r. reflexivity.
Qed.

(** ** Number of binary digits *)

Lemma digits2_pos_bounds p :
  2 ^ (Zpos (digits2_pos p) - 1) <= Zpos p < 2 ^ Zpos (digits2_pos p).
Proof.
  induction p as [p IH | p IH | ]; cbn [digits2_pos].
  - rewrite Pos2Z.inj_succ, (Pos2Z.inj_xI p).
    replace (Z.succ (Zpos (digits2_pos p)) - 1)
      with (Z.succ (Zpos (digits2_pos p) - 1)) by lia.
    rewrite !Z.pow_succ_r by lia. lia.
  - rewrite Pos2Z.inj_succ, (Pos2Z.inj_xO p).
    replace (Z.succ (Zpos (digits2_pos p)) - 1)
      with (Z.succ (Zpos (digits2_pos p) - 1)) by lia.
    rewrite !Z.pow_succ_r by lia. lia.
  - simpl. lia.
Qed.

Lemma Zdigits2_bounds m :
  0 < m -> 2 ^ (Zdigits2 m - 1) <= m < 2 ^ Zdigits2 m.
Proof.
  destruct m as [ | p | p]; try lia. intros _. apply digits2_pos_bounds.
Qed.

Lemma Zdigits2_pos m : 0 < m -> 0 < Zdigits2 m.
Proof. destruct m; simpl; lia. Qed.

Lemma Zdigits2_unique m k :
  0 < m -> 2 ^ (k - 1) <= m < 2 ^ k -> Zdigits2 m = k.
Proof.
  intros Hm [Hlo Hhi].
  pose proof (Zdigits2_bounds m Hm) as [Dlo Dhi].
  pose proof (Zdigits2_pos m Hm) as Dpos.
  assert (0 < k).
  { destruct (Z.ltb_spec 0 k); [ assumption | ].
    destruct k as [ | p | p]; simpl in Hhi; lia. }
  assert (Zdigits2 m - 1 < k)
    by (apply (Z.pow_lt_mono_r_iff 2); lia).
  assert (k - 1 < Zdigits2 m)
    by (apply (Z.pow_lt_mono_r_iff 2); lia).
  lia.
Qed.

(** ** The binary64 format *)

Lemma fexp_eq e : fexp prec emax e = Z.max (e - 53) (-1074).
Proof. reflexivity. Qed.

Lemma loc_of_shr_record_of_loc m l :
  loc_of_shr_record (shr_record_of_loc m l) = l.
Proof. destruct l as [ | [ | | ]]; reflexivity. Qed.

Lemma shr_m_shr_record_of_loc m l : shr_m (shr_record_of_loc m l) = m.
Proof. destruct l as [ | [ | | ]]; reflexivity. Qed.

Lemma binary_round_aux_located sx N D e :
  0 <= N -> 0 < D ->
  binary_round_aux prec emax sx (N / D) e (loc_of N D)
  = finish sx
      (rne N (D * 2 ^ Z.max (fexp prec emax (Zdigits2 (N / D) + e) - e) 0))
      (e + Z.max (fexp prec emax (Zdigits2 (N / D) + e) - e) 0).
Proof.
  intros HN HD. unfold binary_round_aux, finish.
  unfold shr_fexp at 1. fold (located N D).
  rewrite located_shr by assumption.
  unfold located.
  rewrite shr_m_shr_record_of_loc, loc_of_shr_record_of_loc.
  reflexivity.
Qed.

Lemma finish_zero sx E : -1074 <= E -> finish sx 0 E = S754_zero sx.
Proof.
  intros HE. unfold finish, shr_fexp. cbn [Zdigits2 shr_record_of_loc].
  rewrite fexp_eq. unfold shr.
  destruct (Z.max (0 + E - 53) (-1074) - E) as [ | p | p] eqn:Hn; try reflexivity.
  lia.
Qed.

Lemma finish_small sx M E :
  0 < M < 2 ^ 53 -> -1074 <= E ->
  finish sx M E
  = if E <=? 971 then S754_finite sx (Z.to_pos M) E else S754_infinity sx.
Proof.
  intros HM HE. unfold finish, shr_fexp. cbn [shr_record_of_loc].
  rewrite fexp_eq.
  assert (Hd : Zdigits2 M <= 53).
  { pose proof (Zdigits2_bounds M ltac:(lia)) as [Hlo _].
    destruct (Z.leb_spec (Zdigits2 M) 53); [ assumption | ].
    assert (2 ^ 53 <= 2 ^ (Zdigits2 M - 1)) by (apply Z.pow_le_mono_r; lia).
    lia. }
  unfold shr.
  destruct (Z.max (Zdigits2 M + E - 53) (-1074) - E) as [ | p | p] eqn:Hn;
    try lia; cbn [shr_m]; destruct M; try lia; reflexivity.
Qed.

Lemma finish_carry sx E :
  -1074 <= E ->
  finish sx (2 ^ 53) E
  = if E + 1 <=? 971 then S754_finite sx (Z.to_pos (2 ^ 52)) (E + 1)
    else S754_infinity sx.
Proof.
  intros HE. unfold finish, shr_fexp.
  change (Zdigits2 (2 ^ 53)) with 54. rewrite fexp_eq.
  replace (Z.max (54 + E - 53) (-1074) - E) with 1 by lia.
  reflexivity.
Qed.

(** ** Rounding to nearest, ties to even *)

Lemma rne_cases N D :
  0 < D ->
  (2 * (N mod D) < D /\ rne N D = N / D)
  \/ (2 * (N mod D) = D /\ rne N D = N / D /\ Z.even (N / D) = true)
  \/ (2 * (N mod D) = D /\ rne N D = N / D + 1 /\ Z.even (N / D) = false)
  \/ (D < 2 * (N mod D) /\ rne N D = N / D + 1).
Proof.
  intros HD. unfold rne, loc_of.
  pose proof (Z.mod_pos_bound N D HD) as Hb.
  destruct (Z.eqb_spec (N mod D) 0) as [H0 | H0].
  - left. split; [ lia | reflexivity ].
  - destruct (Z.compare_spec (2 * (N mod D)) D) as [He | Hl | Hg];
      cbn [round_nearest_even].
    + destruct (Z.even (N / D)) eqn:Hev; [ right; left | right; right; left ]; auto.
    + left; auto.
    + right; right; right; auto.
Qed.

(** The rounded value is within one half of [N / D]; on a tie it is
    even. *)
Lemma rne_spec N D :
  0 < D ->
  D * (2 * rne N D - 1) <= 2 * N <= D * (2 * rne N D + 1)
  /\ (2 * N = D * (2 * rne N D + 1) -> Z.even (rne N D) = true)
  /\ (2 * N = D * (2 * rne N D - 1) -> Z.even (rne N D) = true).
Proof.
  intros HD.
  pose proof (Z.div_mod N D ltac:(lia)) as Hdm.
  pose proof (Z.mod_pos_bound N D HD) as Hb.
  destruct (rne_cases N D HD)
    as [[Hc ->] | [(Hc & -> & Hev) | [(Hc & -> & Hev) | [Hc ->]]]];
    revert Hdm Hb Hc; try revert Hev;
    generalize (N / D) as q; generalize (N mod D) as r; intros r q.
  - intros. split; [ nia | ]. split; intros; nia.
  - intros. split; [ nia | ]. split; intros; [ exact Hev | nia ].
  - intros. split; [ nia | ]. split; intros; [ nia | ].
    rewrite Z.add_1_r, Z.even_succ, <- Z.negb_even, Hev. reflexivity.
  - intros. split; [ nia | ]. split; intros; nia.
Qed.

Lemma rne_bounds N D :
  0 < D -> N / D <= rne N D <= N / D + 1.
Proof.
  intros HD.
  destruct (rne_cases N D HD)
    as [[Hc ->] | [(Hc & -> & Hev) | [(Hc & -> & Hev) | [Hc ->]]]]; lia.
Qed.

Lemma rne_mono N1 D1 N2 D2 :
  0 < D1 -> 0 < D2 -> N1 * D2 <= N2 * D1 -> rne N1 D1 <= rne N2 D2.
Proof.
  intros HD1 HD2 Hle.
  destruct (rne_spec N1 D1 HD1) as ([Hlo1 Hhi1] & Hup1 & Hdn1).
  destruct (rne_spec N2 D2 HD2) as ([Hlo2 Hhi2] & Hup2 & Hdn2).
  destruct (Z.le_gt_cases (rne N1 D1) (rne N2 D2)) as [ | Hgt]; [ assumption | ].
  exfalso.
  set (M1 := rne N1 D1) in *. set (M2 := rne N2 D2) in *.
  assert (H1 : D1 * D2 * (2 * M2 + 1) <= D1 * D2 * (2 * M1 - 1)) by nia.
  assert (H2 : D1 * D2 * (2 * M1 - 1) <= 2 * N1 * D2) by nia.
  assert (H3 : 2 * N2 * D1 <= D1 * D2 * (2 * M2 + 1)) by nia.
  assert (E1 : 2 * M2 + 1 = 2 * M1 - 1) by nia.
  assert (E2 : 2 * N1 = D1 * (2 * M1 - 1)) by nia.
  assert (E3 : 2 * N2 = D2 * (2 * M2 + 1)) by nia.
  specialize (Hdn1 E2). specialize (Hup2 E3).
  replace M1 with (Z.succ M2) in Hdn1 by lia.
  rewrite Z.even_succ, <- Z.negb_even, Hup2 in Hdn1. discriminate.
Qed.

(** ** Order of the results *)

Lemma SFleb_out m1 e1 m2 e2 :
  0 < m1 -> 0 < m2 ->
  e1 < e2 \/ (e1 = e2 /\ m1 <= m2) ->
  SFleb (out false m1 e1) (out false m2 e2) = true.
Proof.
  intros H1 H2 Hle. unfold out.
  destruct (Z.leb_spec e1 971), (Z.leb_spec e2 971); try reflexivity; try lia.
  unfold SFleb, SFcompare.
  destruct Hle as [Hlt | [-> Hm]].
  - apply Z.compare_lt_iff in Hlt. rewrite Hlt. reflexivity.
  - rewrite Z.compare_refl.
    change (Pos.compare_cont Eq (Z.to_pos m1) (Z.to_pos m2))
      with (Pos.compare (Z.to_pos m1) (Z.to_pos m2)).
    rewrite <- Z2Pos.inj_compare by assumption.
    destruct (Z.compare_spec m1 m2); try reflexivity; lia.
Qed.

Lemma SFleb_zero_out s m e : SFleb (S754_zero s) (out false m e) = true.
Proof. unfold out. destruct (e <=? 971); reflexivity. Qed.

Lemma finish_cases sx M E :
  0 <= M <= 2 ^ 53 -> -1074 <= E ->
  (M = 0 /\ finish sx M E = S754_zero sx)
  \/ (exists m e, finish sx M E = out sx m e /\ 0 < m
                  /\ ((m = M /\ e = E /\ M < 2 ^ 53)
                      \/ (m = 2 ^ 52 /\ e = E + 1 /\ M = 2 ^ 53))).
Proof.
  intros HM HE.
  destruct (Z.eq_dec M 0) as [-> | Hnz].
  - left. split; [ reflexivity | apply finish_zero; exact HE ].
  - right. destruct (Z.eq_dec M (2 ^ 53)) as [-> | Hne].
    + exists (2 ^ 52), (E + 1). rewrite finish_carry by exact HE.
      split; [ reflexivity | ]. split; [ reflexivity | ]. right. auto.
    + exists M, E. rewrite finish_small by lia.
      split; [ reflexivity | ]. split; [ lia | ]. left. lia.
Qed.

Lemma finish_mono_same M1 M2 E :
  0 <= M1 -> M1 <= M2 -> M2 <= 2 ^ 53 -> -1074 <= E ->
  SFleb (finish false M1 E) (finish false M2 E) = true.
Proof.
  intros H0 H12 H2 HE.
  destruct (finish_cases false M1 E) as [[-> ->] | (m1 & e1 & -> & Hp1 & Hc1)];
    try lia;
    destruct (finish_cases false M2 E) as [[-> ->] | (m2 & e2 & -> & Hp2 & Hc2)];
    try lia.
  - reflexivity.
  - apply SFleb_zero_out.
  - apply SFleb_out; try assumption.
    change (2 ^ 52) with 4503599627370496 in *.
    change (2 ^ 53) with 9007199254740992 in *. lia.
Qed.

Lemma finish_mono_next M1 M2 E1 E2 :
  0 <= M1 <= 2 ^ 53 -> 2 ^ 52 <= M2 <= 2 ^ 53 -> -1074 <= E1 -> E1 < E2 ->
  SFleb (finish false M1 E1) (finish false M2 E2) = true.
Proof.
  intros H1 H2 HE Hlt.
  change (2 ^ 52) with 4503599627370496 in *.
  change (2 ^ 53) with 9007199254740992 in *.
  destruct (finish_cases false M1 E1) as [[-> ->] | (m1 & e1 & -> & Hp1 & Hc1)];
    try (change (2 ^ 53) with 9007199254740992; lia);
    destruct (finish_cases false M2 E2) as [[-> ->] | (m2 & e2 & -> & Hp2 & Hc2)];
    try (change (2 ^ 53) with 9007199254740992; lia).
  - apply SFleb_zero_out.
  - change (2 ^ 52) with 4503599627370496 in *.
    change (2 ^ 53) with 9007199254740992 in *.
    apply SFleb_out; try assumption. lia.
Qed.

(** ** Monotonicity of [binary_round_aux] *)

Lemma pow2_pos a : 0 <= a -> 0 < 2 ^ a.
Proof. intros; apply Z.pow_pos_nonneg; lia. Qed.

(** The exponent chosen for an input that is fine enough, and the
    range of the rounded mantissa. *)
Lemma rounded_bounds N D e :
  0 <= N -> 0 < D ->
  e <= fexp prec emax (Zdigits2 (N / D) + e) ->
  let E := fexp prec emax (Zdigits2 (N / D) + e) in
  let M := rne N (D * 2 ^ (E - e)) in
  -1074 <= E
  /\ 0 <= M <= 2 ^ 53
  /\ (-1074 < E -> 2 ^ 52 <= M)
  /\ (N / D = 0 -> E = -1074).
Proof.
  intros HN HD Hfine E M. subst M.
  assert (HE : E = Z.max (Zdigits2 (N / D) + e - 53) (-1074)) by reflexivity.
  assert (Hk : 0 <= E - e) by (subst E; lia).
  pose proof (pow2_pos (E - e) Hk) as Hp.
  assert (Hq0 : 0 <= N / D) by (apply Z.div_pos; lia).
  pose proof (rne_bounds N (D * 2 ^ (E - e)) ltac:(nia)) as Hb.
  rewrite <- Z.div_div in Hb by lia.
  split; [ lia | ].
  destruct (Z.eq_dec (N / D) 0) as [H0 | H0].
  - rewrite H0 in *. rewrite Z.div_0_l in Hb by lia.
    cbn [Zdigits2] in HE.
    change (2 ^ 53) with 9007199254740992.
    change (2 ^ 52) with 4503599627370496.
    repeat split; try lia.
  - pose proof (Zdigits2_bounds (N / D) ltac:(lia)) as [Dlo Dhi].
    pose proof (Zdigits2_pos (N / D) ltac:(lia)) as Dpos.
    set (d := Zdigits2 (N / D)) in *.
    assert (Hup : N / D / 2 ^ (E - e) < 2 ^ 53).
    { apply Z.div_lt_upper_bound; [ exact Hp | ].
      rewrite <- Z.pow_add_r by lia.
      eapply Z.lt_le_trans; [ exact Dhi | ].
      apply Z.pow_le_mono_r; lia. }
    assert (Hlo : 0 <= N / D / 2 ^ (E - e)) by (apply Z.div_pos; lia).
    repeat split; try lia.
    intros Hnorm.
    assert (Hkd : E - e = d - 53) by lia.
    assert (2 ^ 52 <= N / D / 2 ^ (E - e)); [ | lia ].
    apply Z.div_le_lower_bound; [ exact Hp | ].
    rewrite <- Z.pow_add_r by lia.
    replace (E - e + 52) with (d - 1) by lia. exact Dlo.
Qed.

Lemma exponent_mono N1 D1 e1 N2 D2 e2 :
  0 <= N1 -> 0 < D1 -> 0 <= N2 -> 0 < D2 ->
  0 < N1 / D1 ->
  N1 * D2 * 2 ^ (e1 - Z.min e1 e2) <= N2 * D1 * 2 ^ (e2 - Z.min e1 e2) ->
  Zdigits2 (N1 / D1) + e1 <= Zdigits2 (N2 / D2) + e2.
Proof.
  intros HN1 HD1 HN2 HD2 Hm1 Hle.
  pose proof (Zdigits2_bounds (N1 / D1) Hm1) as [Dlo1 _].
  pose proof (Zdigits2_pos (N1 / D1) Hm1) as Dpos1.
  assert (Hm2 : 0 <= N2 / D2) by (apply Z.div_pos; lia).
  assert (Dhi2 : N2 / D2 + 1 <= 2 ^ Zdigits2 (N2 / D2)).
  { destruct (Z.eq_dec (N2 / D2) 0) as [-> | Hnz]; [ simpl; lia | ].
    pose proof (Zdigits2_bounds (N2 / D2) ltac:(lia)). lia. }
  assert (Dnn2 : 0 <= Zdigits2 (N2 / D2)).
  { destruct (Z.eq_dec (N2 / D2) 0) as [-> | Hnz]; [ simpl; lia | ].
    pose proof (Zdigits2_pos (N2 / D2) ltac:(lia)). lia. }
  set (d1 := Zdigits2 (N1 / D1)) in *. set (d2 := Zdigits2 (N2 / D2)) in *.
  set (a1 := e1 - Z.min e1 e2) in *. set (a2 := e2 - Z.min e1 e2) in *.
  assert (Ha1 : 0 <= a1) by (subst a1; lia).
  assert (Ha2 : 0 <= a2) by (subst a2; lia).
  pose proof (pow2_pos a1 Ha1) as Pa1. pose proof (pow2_pos a2 Ha2) as Pa2.
  pose proof (Z.div_mod N1 D1 ltac:(lia)) as Hdm1.
  pose proof (Z.mod_pos_bound N1 D1 HD1) as Hr1.
  pose proof (Z.div_mod N2 D2 ltac:(lia)) as Hdm2.
  pose proof (Z.mod_pos_bound N2 D2 HD2) as Hr2.
  assert (Hlt : 2 ^ (d1 - 1 + a1) < 2 ^ (d2 + a2)).
  { rewrite !Z.pow_add_r by lia.
    assert (S1 : 2 ^ (d1 - 1) * D1 <= N1) by nia.
    assert (S2 : N2 < 2 ^ d2 * D2) by nia.
    assert (S3 : 2 ^ (d1 - 1) * 2 ^ a1 * (D1 * D2) <= N1 * D2 * 2 ^ a1) by nia.
    assert (S4 : N2 * D1 * 2 ^ a2 < 2 ^ d2 * 2 ^ a2 * (D1 * D2)) by nia.
    assert (S5 : 2 ^ (d1 - 1) * 2 ^ a1 * (D1 * D2) < 2 ^ d2 * 2 ^ a2 * (D1 * D2))
      by lia.
    apply Z.mul_lt_mono_pos_r in S5; [ exact S5 | nia ]. }
  apply Z.pow_lt_mono_r_iff in Hlt; lia.
Qed.

Lemma binary_round_aux_mono N1 D1 e1 N2 D2 e2 :
  0 <= N1 -> 0 < D1 -> 0 <= N2 -> 0 < D2 ->
  e1 <= fexp prec emax (Zdigits2 (N1 / D1) + e1) ->
  e2 <= fexp prec emax (Zdigits2 (N2 / D2) + e2) ->
  N1 * D2 * 2 ^ (e1 - Z.min e1 e2) <= N2 * D1 * 2 ^ (e2 - Z.min e1 e2) ->
  SFleb (binary_round_aux prec emax false (N1 / D1) e1 (loc_of N1 D1))
        (binary_round_aux prec emax false (N2 / D2) e2 (loc_of N2 D2))
  = true.
Proof.
  intros HN1 HD1 HN2 HD2 Hf1 Hf2 Hle.
  rewrite !binary_round_aux_located by assumption.
  destruct (rounded_bounds N1 D1 e1 HN1 HD1 Hf1) as (HE1 & HM1 & _ & Hz1).
  destruct (rounded_bounds N2 D2 e2 HN2 HD2 Hf2) as (HE2 & HM2 & Hn2 & _).
  set (E1 := fexp prec emax (Zdigits2 (N1 / D1) + e1)) in *.
  set (E2 := fexp prec emax (Zdigits2 (N2 / D2) + e2)) in *.
  rewrite !Z.max_l by lia.
  replace (e1 + (E1 - e1)) with E1 by lia.
  replace (e2 + (E2 - e2)) with E2 by lia.
  assert (HE : E1 <= E2).
  { destruct (Z.eq_dec (N1 / D1) 0) as [H0 | H0].
    - rewrite (Hz1 H0). exact HE2.
    - assert (Hm1 : 0 < N1 / D1).
      { pose proof (Z.div_pos N1 D1 HN1 HD1). lia. }
      pose proof (exponent_mono N1 D1 e1 N2 D2 e2 HN1 HD1 HN2 HD2 Hm1 Hle).
      subst E1 E2. rewrite !fexp_eq. lia. }
  destruct (Z.eq_dec E1 E2) as [Heq | Hne].
  - rewrite <- Heq in *.
    apply finish_mono_same; try lia.
    apply rne_mono.
    + pose proof (pow2_pos (E1 - e1)); nia.
    + pose proof (pow2_pos (E1 - e2)); nia.
    + set (t := E1 - e1 - e2 + Z.min e1 e2).
      assert (Ht : 0 <= t) by (subst t; lia).
      pose proof (pow2_pos t Ht) as Pt.
      replace (E1 - e2) with (t + (e1 - Z.min e1 e2)) by (subst t; lia).
      replace (E1 - e1) with (t + (e2 - Z.min e1 e2)) by (subst t; lia).
      rewrite !Z.pow_add_r by lia.
      pose proof (pow2_pos (e1 - Z.min e1 e2) ltac:(lia)).
      pose proof (pow2_pos (e2 - Z.min e1 e2) ltac:(lia)).
      nia.
  - apply finish_mono_next; lia.
Qed.

(** ** The order of [spec_float] through a lexicographic key *)

Lemma SFleb_key x y :
  is_nan_sf x = false -> is_nan_sf y = false ->
  (SFleb x y = true <-> lexle (SFkey x) (SFkey y)).
Proof.
  intros Hx Hy. unfold SFleb, SFcompare, lexle.
  destruct x as [sx | sx | | sx mx ex]; try discriminate Hx;
    destruct y as [sy | sy | | sy my ey]; try discriminate Hy;
    try destruct sx; try destruct sy; cbn [SFkey];
    try (split; [ intros _; lia | reflexivity ]);
    try (split; [ discriminate | lia ]).
  - change (Pos.compare_cont Eq mx my) with (Pos.compare mx my).
    rewrite (Pos2Z.inj_compare mx my).
    destruct (Z.compare_spec ex ey); destruct (Z.compare_spec (Zpos mx) (Zpos my));
      cbn [CompOpp]; split; try discriminate; try reflexivity; lia.
  - change (Pos.compare_cont Eq mx my) with (Pos.compare mx my).
    rewrite (Pos2Z.inj_compare mx my).
    destruct (Z.compare_spec ex ey); destruct (Z.compare_spec (Zpos mx) (Zpos my));
      split; try discriminate; try reflexivity; lia.
Qed.

Lemma SFleb_not_nan x y :
  SFleb x y = true -> is_nan_sf x = false /\ is_nan_sf y = false.
Proof.
  unfold SFleb, SFcompare.
  destruct x as [sx | sx | | sx mx ex]; destruct y as [sy | sy | | sy my ey];
    try discriminate; auto.
Qed.

Lemma SFleb_trans x y z :
  SFleb x y = true -> SFleb y z = true -> SFleb x z = true.
Proof.
  intros Hxy Hyz.
  destruct (SFleb_not_nan _ _ Hxy) as [Hx Hy].
  destruct (SFleb_not_nan _ _ Hyz) as [_ Hz].
  apply SFleb_key in Hxy; try assumption.
  apply SFleb_key in Hyz; try assumption.
  apply SFleb_key; try assumption.
  unfold lexle in *.
  destruct (SFkey x) as [[x1 x2] x3], (SFkey y) as [[y1 y2] y3],
    (SFkey z) as [[z1 z2] z3].
  lia.
Qed.

Lemma SFltb_leb x y : SFltb x y = true -> SFleb x y = true.
Proof.
  unfold SFltb, SFleb. destruct (SFcompare x y) as [[ | | ] | ]; auto.
Qed.

(** ** Valid binary64 numbers *)

Lemma valid_finite_bounds s m e :
  valid_binary (S754_finite s m e) = true ->
  -1074 <= e <= 971
  /\ Zpos m < 2 ^ 53
  /\ Zpos (digits2_pos m) <= 53
  /\ (-1074 < e -> 2 ^ 52 <= Zpos m).
Proof.
  unfold SpecFloat.valid_binary, bounded, canonical_mantissa.
  rewrite fexp_eq. intros H.
  apply andb_true_iff in H as [Hc He].
  apply Z.eqb_eq in Hc. apply Z.leb_le in He.
  change (emax - prec) with 971 in He.
  pose proof (digits2_pos_bounds m) as [Dlo Dhi].
  assert (Hd : Zpos (digits2_pos m) <= 53) by lia.
  split; [ lia | ]. split.
  - eapply Z.lt_le_trans; [ exact Dhi | ]. apply Z.pow_le_mono_r; lia.
  - split; [ exact Hd | ]. intros Hn.
    replace (Zpos (digits2_pos m)) with 53 in Dlo by lia. exact Dlo.
Qed.

(** ** Division *)

Lemma SFdiv_core_located mx ex my ey :
  SFdiv_core_binary prec emax (Zpos mx) ex (Zpos my) ey
  = (div_num mx ex my ey / Zpos my, div_exp mx ex my ey,
     loc_of (div_num mx ex my ey) (Zpos my)).
Proof.
  unfold SFdiv_core_binary, div_num. cbn [Zdigits2].
  fold (div_exp mx ex my ey).
  assert (Hs : 0 <= ex - ey - div_exp mx ex my ey) by (unfold div_exp; lia).
  set (s := ex - ey - div_exp mx ex my ey) in *.
  assert (Hm : match s with
               | 0 => Zpos mx
               | Zpos _ => Z.shiftl (Zpos mx) s
               | Zneg _ => 0
               end = Zpos mx * 2 ^ s).
  { destruct s as [ | p | p]; [ simpl; lia | | lia ].
    apply Z.shiftl_mul_pow2. lia. }
  rewrite Hm.
  rewrite <- new_location_loc_of by lia.
  unfold Z.div, Z.modulo.
  destruct (Z.div_eucl (Zpos mx * 2 ^ s) (Zpos my)) as [q r]. reflexivity.
Qed.

Lemma div_num_pos mx ex my ey : 0 < div_num mx ex my ey.
Proof.
  unfold div_num.
  assert (0 <= ex - ey - div_exp mx ex my ey) by (unfold div_exp; lia).
  pose proof (pow2_pos _ H). nia.
Qed.

(** The quotient has enough digits for the chosen exponent. *)
Lemma div_fine mx ex my ey :
  Zpos (digits2_pos mx) <= 53 ->
  div_exp mx ex my ey
  <= fexp prec emax (Zdigits2 (div_num mx ex my ey / Zpos my)
                     + div_exp mx ex my ey).
Proof.
  intros Hd1. rewrite fexp_eq.
  destruct (Z.le_gt_cases (div_exp mx ex my ey) (-1074)) as [ | Hgt]; [ lia | ].
  pose proof (digits2_pos_bounds mx) as [Dlo1 Dhi1].
  pose proof (digits2_pos_bounds my) as [Dlo2 Dhi2].
  set (d1 := Zpos (digits2_pos mx)) in *. set (d2 := Zpos (digits2_pos my)) in *.
  assert (Hd1p : 0 < d1) by (subst d1; lia).
  assert (Hd2p : 0 < d2) by (subst d2; lia).
  assert (He : div_exp mx ex my ey = d1 + ex - (d2 + ey) - 53).
  { unfold div_exp in *. fold d1 d2 in Hgt |- *. rewrite fexp_eq in *. lia. }
  assert (Hq : 2 ^ 52 <= div_num mx ex my ey / Zpos my).
  { apply Z.div_le_lower_bound; [ lia | ].
    unfold div_num. rewrite He.
    replace (ex - ey - (d1 + ex - (d2 + ey) - 53)) with ((d2 + 52) - (d1 - 1)) by lia.
    assert (Hpow : 2 ^ (d1 - 1) * 2 ^ (d2 + 52 - (d1 - 1)) = 2 ^ d2 * 2 ^ 52).
    { rewrite <- !Z.pow_add_r by lia. f_equal. lia. }
    pose proof (pow2_pos (d2 + 52 - (d1 - 1)) ltac:(lia)).
    nia. }
  assert (Hqpos : 0 < div_num mx ex my ey / Zpos my)
    by (pose proof (pow2_pos 52 ltac:(lia)); lia).
  pose proof (Zdigits2_bounds _ Hqpos) as [_ Qhi].
  assert (52 < Zdigits2 (div_num mx ex my ey / Zpos my)).
  { apply (Z.pow_lt_mono_r_iff 2); try lia.
    pose proof (Zdigits2_pos _ Hqpos). lia. }
  lia.
Qed.

(** Division of positive valid numbers by a positive number is
    monotone. *)
Lemma SFdiv_mono_pos mx1 ex1 mx2 ex2 my ey :
  valid_binary (S754_finite false mx1 ex1) = true ->
  valid_binary (S754_finite false mx2 ex2) = true ->
  ex1 < ex2 \/ (ex1 = ex2 /\ Zpos mx1 <= Zpos mx2) ->
  SFleb (SFdiv prec emax (S754_finite false mx1 ex1) (S754_finite false my ey))
        (SFdiv prec emax (S754_finite false mx2 ex2) (S754_finite false my ey))
  = true.
Proof.
  intros Hv1 Hv2 Hle. unfold SFdiv. rewrite !SFdiv_core_located. cbn [xorb].
  destruct (valid_finite_bounds _ _ _ Hv1) as (He1 & Hm1 & Hd1 & _).
  destruct (valid_finite_bounds _ _ _ Hv2) as (He2 & Hm2 & Hd2 & Hn2).
  pose proof (div_num_pos mx1 ex1 my ey) as Hp1.
  pose proof (div_num_pos mx2 ex2 my ey) as Hp2.
  apply binary_round_aux_mono; try lia;
    try (apply div_fine; assumption).
  unfold div_num.
  set (g1 := div_exp mx1 ex1 my ey). set (g2 := div_exp mx2 ex2 my ey).
  assert (Hs1 : 0 <= ex1 - ey - g1) by (subst g1; unfold div_exp; lia).
  assert (Hs2 : 0 <= ex2 - ey - g2) by (subst g2; unfold div_exp; lia).
  set (g0 := Z.min g1 g2).
  assert (Hg1 : 0 <= g1 - g0) by (subst g0; lia).
  assert (Hg2 : 0 <= g2 - g0) by (subst g0; lia).
  replace (Zpos mx1 * 2 ^ (ex1 - ey - g1) * Zpos my * 2 ^ (g1 - g0))
    with (Zpos my * (Zpos mx1 * 2 ^ (ex1 - ey - g0)))
    by (replace (ex1 - ey - g0) with ((ex1 - ey - g1) + (g1 - g0)) by lia;
        rewrite Z.pow_add_r by lia; ring).
  replace (Zpos mx2 * 2 ^ (ex2 - ey - g2) * Zpos my * 2 ^ (g2 - g0))
    with (Zpos my * (Zpos mx2 * 2 ^ (ex2 - ey - g0)))
    by (replace (ex2 - ey - g0) with ((ex2 - ey - g2) + (g2 - g0)) by lia;
        rewrite Z.pow_add_r by lia; ring).
  apply Z.mul_le_mono_nonneg_l; [ lia | ].
  assert (Ha : 0 <= ex1 - ey - g0) by lia.
  destruct Hle as [Hlt | [Heq Hm]].
  - specialize (Hn2 ltac:(lia)).
    replace (ex2 - ey - g0) with ((ex1 - ey - g0) + (ex2 - ex1)) by lia.
    rewrite Z.pow_add_r by lia.
    pose proof (pow2_pos (ex1 - ey - g0) Ha) as Pa.
    assert (Hstep : 2 <= 2 ^ (ex2 - ex1)).
    { change 2 with (2 ^ 1) at 1. apply Z.pow_le_mono_r; lia. }
    change (2 ^ 53) with (2 * 2 ^ 52) in Hm1.
    pose proof (pow2_pos 52 ltac:(lia)) as P52.
    generalize dependent (2 ^ 52). generalize dependent (2 ^ (ex2 - ex1)).
    generalize dependent (2 ^ (ex1 - ey - g0)).
    generalize dependent (Zpos mx1). generalize dependent (Zpos mx2).
    clear. intros m2 _ m1 A HA B HB P Hm1 Hm2 HP.
    assert (S1 : m1 * A <= 2 * P * A) by nia.
    assert (S2 : 2 * P * A <= 2 * m2 * A) by nia.
    assert (S3 : 2 * (m2 * A) <= B * (m2 * A)) by nia.
    lia.
  - rewrite Heq. pose proof (pow2_pos (ex2 - ey - g0) ltac:(lia)). nia.
Qed.

(** ** Signs *)

Lemma SFleb_nonpos_nonneg a b :
  is_nonpos a = true -> is_nonneg b = true -> SFleb a b = true.
Proof.
  destruct a as [sa | [ | ] | | [ | ] ma ea]; try discriminate;
    destruct b as [sb | [ | ] | | [ | ] mb eb]; try discriminate; reflexivity.
Qed.

Lemma SFopp_nonneg a : is_nonneg a = true -> is_nonpos (SFopp a) = true.
Proof. destruct a as [sa | [ | ] | | [ | ] ma ea]; try discriminate; reflexivity. Qed.

Lemma SFleb_opp a b : SFleb b a = true -> SFleb (SFopp a) (SFopp b) = true.
Proof.
  intros H. destruct (SFleb_not_nan _ _ H) as [Hb Ha].
  apply SFleb_key in H; try assumption.
  apply SFleb_key.
  - destruct a; try discriminate; reflexivity.
  - destruct b; try discriminate; reflexivity.
  - unfold lexle in *.
    destruct a as [sa | [ | ] | | [ | ] ma ea]; try discriminate Ha;
      destruct b as [sb | [ | ] | | [ | ] mb eb]; try discriminate Hb;
      cbn [SFopp SFkey negb] in *; lia.
Qed.

Lemma SFleb_refl_zero s1 s2 : SFleb (S754_zero s1) (S754_zero s2) = true.
Proof. reflexivity. Qed.

Lemma binary_round_aux_opp m e l :
  binary_round_aux prec emax true m e l
  = SFopp (binary_round_aux prec emax false m e l).
Proof.
  unfold binary_round_aux.
  destruct (shr_fexp prec emax m e l) as [mrs' e'].
  destruct (shr_fexp prec emax _ e' loc_Exact) as [mrs'' e''].
  destruct (shr_m mrs''); try reflexivity.
  destruct (e'' <=? emax - prec); reflexivity.
Qed.

Lemma finish_nonneg M E :
  0 <= M <= 2 ^ 53 -> -1074 <= E -> is_nonneg (finish false M E) = true.
Proof.
  intros HM HE.
  destruct (finish_cases false M E HM HE) as [[_ ->] | (m & e & -> & _)];
    [ reflexivity | ].
  unfold out. destruct (e <=? 971); reflexivity.
Qed.

Lemma binary_round_aux_nonneg N D e :
  0 <= N -> 0 < D ->
  e <= fexp prec emax (Zdigits2 (N / D) + e) ->
  is_nonneg (binary_round_aux prec emax false (N / D) e (loc_of N D)) = true.
Proof.
  intros HN HD Hfine.
  rewrite binary_round_aux_located by assumption.
  destruct (rounded_bounds N D e HN HD Hfine) as (HE & HM & _).
  rewrite Z.max_l by lia.
  replace (e + (fexp prec emax (Zdigits2 (N / D) + e) - e))
    with (fexp prec emax (Zdigits2 (N / D) + e)) by lia.
  apply finish_nonneg; assumption.
Qed.

Lemma SFdiv_finite_nonneg mx ex my ey :
  valid_binary (S754_finite false mx ex) = true ->
  is_nonneg (SFdiv prec emax (S754_finite false mx ex) (S754_finite false my ey))
  = true.
Proof.
  intros Hv. unfold SFdiv. rewrite SFdiv_core_located. cbn [xorb].
  destruct (valid_finite_bounds _ _ _ Hv) as (_ & _ & Hd & _).
  pose proof (div_num_pos mx ex my ey).
  apply binary_round_aux_nonneg; try lia. apply div_fine; exact Hd.
Qed.

Lemma SFdiv_finite_opp mx ex my ey :
  SFdiv prec emax (S754_finite true mx ex) (S754_finite false my ey)
  = SFopp (SFdiv prec emax (S754_finite false mx ex) (S754_finite false my ey)).
Proof.
  unfold SFdiv. destruct (SFdiv_core_binary prec emax _ ex _ ey) as [[mz ez] lz].
  cbn [xorb]. apply binary_round_aux_opp.
Qed.

Lemma is_nonneg_not_nan x : is_nonneg x = true -> is_nan_sf x = false.
Proof. destruct x as [ | | | [ | ] ? ?]; try discriminate; reflexivity. Qed.

Lemma is_nonpos_not_nan x : is_nonpos x = true -> is_nan_sf x = false.
Proof. destruct x as [ | | | [ | ] ? ?]; try discriminate; reflexivity. Qed.

Lemma SFleb_neg_infinity x :
  is_nan_sf x = false -> SFleb (S754_infinity true) x = true.
Proof. destruct x as [ | [ | ] | | [ | ] ? ?]; try discriminate; reflexivity. Qed.

Lemma SFleb_infinity x :
  is_nan_sf x = false -> SFleb x (S754_infinity false) = true.
Proof. destruct x as [ | [ | ] | | [ | ] ? ?]; try discriminate; reflexivity. Qed.

Lemma SFdiv_infinity s my ey :
  SFdiv prec emax (S754_infinity s) (S754_finite false my ey) = S754_infinity s.
Proof. destruct s; reflexivity. Qed.

Lemma SFdiv_zero s my ey :
  SFdiv prec emax (S754_zero s) (S754_finite false my ey) = S754_zero s.
Proof. destruct s; reflexivity. Qed.

(** Division by a positive finite number is monotone on the valid
    numbers. *)
Lemma SFdiv_mono x1 x2 my ey :
  valid_binary x1 = true -> valid_binary x2 = true ->
  SFleb x1 x2 = true ->
  SFleb (SFdiv prec emax x1 (S754_finite false my ey))
        (SFdiv prec emax x2 (S754_finite false my ey)) = true.
Proof.
  intros Hv1 Hv2 Hle.
  destruct (SFleb_not_nan _ _ Hle) as [Hn1 Hn2].
  pose proof Hle as Hkey. apply SFleb_key in Hkey; try assumption.
  destruct x1 as [s1 | s1 | | s1 m1 e1]; try discriminate Hn1;
    destruct x2 as [s2 | s2 | | s2 m2 e2]; try discriminate Hn2;
    try destruct s1; try destruct s2;
    try discriminate Hle;
    rewrite ?SFdiv_finite_opp, ?SFdiv_infinity, ?SFdiv_zero;
    first
      [ reflexivity
      | apply SFleb_nonpos_nonneg;
        [ first [ reflexivity
                | apply SFopp_nonneg, SFdiv_finite_nonneg; assumption ]
        | first [ reflexivity | apply SFdiv_finite_nonneg; assumption ] ]
      | apply SFleb_neg_infinity;
        first [ apply is_nonpos_not_nan, SFopp_nonneg, SFdiv_finite_nonneg;
                assumption
              | apply is_nonneg_not_nan, SFdiv_finite_nonneg; assumption ]
      | apply SFleb_infinity;
        first [ apply is_nonpos_not_nan, SFopp_nonneg, SFdiv_finite_nonneg;
                assumption
              | apply is_nonneg_not_nan, SFdiv_finite_nonneg; assumption ]
      | apply SFleb_opp, SFdiv_mono_pos;
        [ assumption | assumption | cbn [SFkey lexle] in Hkey; lia ]
      | apply SFdiv_mono_pos;
        [ assumption | assumption | cbn [SFkey lexle] in Hkey; lia ] ].
Qed.

(** ** Conversion of integers *)

Lemma iter_xO_value d : forall m, Zpos (Pos.iter xO m d) = Zpos m * 2 ^ Zpos d.
Proof.
  induction d as [ | d IH] using Pos.peano_ind; intros m.
  - simpl. lia.
  - rewrite Pos.iter_succ, Pos2Z.inj_xO, IH, Pos2Z.inj_succ, Z.pow_succ_r by lia.
    ring.
Qed.

Lemma shl_align_spec mx ex ex' :
  exists k,
    0 <= k
    /\ snd (shl_align mx ex ex') = ex - k
    /\ Zpos (fst (shl_align mx ex ex')) = Zpos mx * 2 ^ k
    /\ ex - k = Z.min ex ex'.
Proof.
  unfold shl_align. destruct (ex' - ex) as [ | d | d] eqn:Hd.
  - exists 0. cbn [fst snd]. rewrite Z.pow_0_r. repeat split; lia.
  - exists 0. cbn [fst snd]. rewrite Z.pow_0_r. repeat split; lia.
  - exists (Zpos d). cbn [fst snd]. rewrite iter_xO_value. repeat split; lia.
Qed.

Lemma Zdigits2_shift m k :
  0 < m -> 0 <= k -> Zdigits2 (m * 2 ^ k) = Zdigits2 m + k.
Proof.
  intros Hm Hk.
  pose proof (Zdigits2_bounds m Hm) as [Dlo Dhi].
  pose proof (Zdigits2_pos m Hm) as Dpos.
  pose proof (pow2_pos k Hk) as Pk.
  apply Zdigits2_unique; [ nia | ].
  replace (Zdigits2 m + k - 1) with ((Zdigits2 m - 1) + k) by lia.
  rewrite !Z.pow_add_r by lia. nia.
Qed.

(** [binary_round] of a positive integer mantissa, as a located
    fraction over 1. *)
Lemma binary_round_located mx ex :
  exists k,
    0 <= k
    /\ binary_round prec emax false mx ex
       = binary_round_aux prec emax false (Zpos mx * 2 ^ k / 1) (ex - k)
           (loc_of (Zpos mx * 2 ^ k) 1)
    /\ ex - k <= fexp prec emax (Zdigits2 (Zpos mx * 2 ^ k / 1) + (ex - k)).
Proof.
  unfold binary_round.
  destruct (shl_align_spec mx ex (fexp prec emax (Zpos (digits2_pos mx) + ex)))
    as (k & Hk & Hsnd & Hfst & Hmin).
  destruct (shl_align mx ex _) as [mz ez]. cbn [fst snd] in *.
  exists k. split; [ exact Hk | ].
  rewrite Z.div_1_r, <- Hfst, <- Hsnd.
  split.
  - unfold loc_of. rewrite Z.mod_1_r. reflexivity.
  - rewrite Hfst, Zdigits2_shift by lia. cbn [Zdigits2].
    replace (Zpos (digits2_pos mx) + k + ez) with (Zpos (digits2_pos mx) + ex) by lia.
    lia.
Qed.

Lemma binary_normalize_mono z1 z2 :
  0 <= z1 -> z1 <= z2 ->
  SFleb (binary_normalize prec emax z1 0 false)
        (binary_normalize prec emax z2 0 false) = true.
Proof.
  intros H1 H12.
  destruct z1 as [ | p1 | p1]; try lia; destruct z2 as [ | p2 | p2]; try lia;
    cbn [binary_normalize].
  - reflexivity.
  - destruct (binary_round_located p2 0) as (k & Hk & -> & Hfine).
    apply SFleb_nonpos_nonneg; [ reflexivity | ].
    pose proof (pow2_pos k Hk).
    apply binary_round_aux_nonneg; try lia; assumption.
  - destruct (binary_round_located p1 0) as (k1 & Hk1 & -> & Hfine1).
    destruct (binary_round_located p2 0) as (k2 & Hk2 & -> & Hfine2).
    pose proof (pow2_pos k1 Hk1). pose proof (pow2_pos k2 Hk2).
    apply binary_round_aux_mono; try lia; try assumption.
    rewrite !Z.mul_1_r.
    rewrite <- !Z.mul_assoc, <- !Z.pow_add_r by lia.
    replace (k1 + (0 - k1 - Z.min (0 - k1) (0 - k2))) with (Z.max k1 k2) by lia.
    replace (k2 + (0 - k2 - Z.min (0 - k1) (0 - k2))) with (Z.max k1 k2) by lia.
    pose proof (pow2_pos (Z.max k1 k2) ltac:(lia)). nia.
Qed.


(** ** Numbers *)

Lemma number_leb_trans (x y z : float) :
  (x <=? y)%float = true -> (y <=? z)%float = true -> (x <=? z)%float = true.
Proof. rewrite !leb_spec. apply SFleb_trans. Qed.

(** Dividing by a positive finite Number keeps the order. *)
Lemma number_div_mono (x1 x2 c : float) my ey :
  Prim2SF c = S754_finite false my ey ->
  (x1 <=? x2)%float = true -> (x1 / c <=? x2 / c)%float = true.
Proof.
  intros Hc. rewrite !leb_spec, !div_spec, Hc.
  apply SFdiv_mono; apply Prim2SF_valid.
Qed.

Lemma number_ltb_leb (x y : float) :
  (x <? y)%float = true -> (x <=? y)%float = true.
Proof. rewrite ltb_spec, leb_spec. apply SFltb_leb. Qed.

(** Converting a non-negative integer below 2^63 keeps the order. *)
Lemma number_of_Z_mono z1 z2 :
  0 <= z1 -> z1 <= z2 -> z2 < 2 ^ 63 ->
  (number_of_Z z1 <=? number_of_Z z2)%float = true.
Proof.
  intros H1 H12 H2. unfold number_of_Z.
  destruct (Z.leb_spec 0 z1); [ | lia ].
  destruct (Z.leb_spec 0 z2); [ | lia ].
  rewrite leb_spec, !of_uint63_spec, !Uint63.of_Z_spec.
  change wB with (2 ^ 63).
  rewrite !Z.mod_small by lia.
  apply binary_normalize_mono; assumption.
Qed.

End Binary64Facts.

(* ================================================================== *)
(** * Properties of the simple-flag rollout decision                   *)
(* ================================================================== *)

Section RolloutClaims.

Example sha1_a_b :
  Sha1.hexdigest "a.b" = "69f6642c9d71b463485b4faf4e989dc3fe77a8c6".
Proof. vm_compute. reflexivity. Qed.

Example sha1_abc :
  Sha1.hexdigest "abc" = "a9993e364706816aba3e25717850c26c9cd0d89d".
Proof. vm_compute. reflexivity. Qed.

Example sha1_two_blocks :
  Sha1.hexdigest "abcdbcdecdefdefgefghfghighijhijkijkljklmklmnlmnomnopnopq"
  = "84983e441c3bd26ebaae4aa1f95129e5e54670f1".
Proof. vm_compute. reflexivity. Qed.

(** The literal [0xfffffffffffffff] is not a binary64 value: the
    constant is 2^60. *)
Example LONG_SCALE_value : LONG_SCALE = 1152921504606846976%float.
Proof. vm_compute. reflexivity. Qed.

(** The values that [!rolloutPercentage] lets through. *)
Example falsy_values :
  map ToBoolean [JSundefined; JSnull; JSnumber 0; JSnumber (-0);
                 JSnumber PrimFloat.nan; JSnumber 42; JSnumber (-1);
                 JSnumber PrimFloat.infinity]
  = [false; false; false; false; false; true; true; true].
Proof. vm_compute. reflexivity. Qed.

(** ** The hexadecimal digits read back by [parseInt] *)


Lemma hex_of_nibbles n x :
  Sha1.hex_of n x = string_of_list_ascii (map Sha1.hex_digit (Sha1.nibbles n x)).
Proof. induction n as [ | n IH]; simpl; [ reflexivity | rewrite IH; reflexivity ]. Qed.

Lemma nibbles_length n x : List.length (Sha1.nibbles n x) = n.
Proof. induction n as [ | n IH]; simpl; congruence. Qed.

Lemma nibbles_range n x : Forall (fun d => 0 <= d < 16) (Sha1.nibbles n x).
Proof.
  induction n as [ | n IH]; simpl; constructor; [ | exact IH ].
  apply Z.mod_pos_bound; lia.
Qed.

Lemma nibbles_value n x a :
  hex_value (Sha1.nibbles n x) a = a * 16 ^ Z.of_nat n + x mod 16 ^ Z.of_nat n.
Proof.
  revert a; induction n as [ | n IH]; intros a.
  - simpl. rewrite Z.mod_1_r. lia.
  - cbn [Sha1.nibbles hex_value fold_left]. fold (hex_value (Sha1.nibbles n x)).
    rewrite IH. rewrite Nat2Z.inj_succ, Z.pow_succ_r by lia.
    rewrite (Z.mul_comm 16 (16 ^ Z.of_nat n)).
    rewrite (Z.rem_mul_r x (16 ^ Z.of_nat n) 16) by lia.
    ring.
Qed.

Lemma nibbles_succ n x :
  Sha1.nibbles (S n) x = Sha1.nibbles n (x / 16) ++ [x mod 16].
Proof.
  induction n as [ | n IH].
  - simpl. rewrite Z.div_1_r. reflexivity.
  - change (Sha1.nibbles (S (S n)) x)
      with ((x / 16 ^ Z.of_nat (S n)) mod 16 :: Sha1.nibbles (S n) x).
    rewrite IH. cbn [Sha1.nibbles app]. f_equal.
    rewrite Nat2Z.inj_succ, Z.pow_succ_r by lia.
    rewrite Z.div_div by lia. reflexivity.
Qed.

Lemma digit_value_hex_digit d :
  0 <= d < 16 -> digit_value (Sha1.hex_digit d) = Some d.
Proof.
  intros Hd.
  assert (H : d = 0 \/ d = 1 \/ d = 2 \/ d = 3 \/ d = 4 \/ d = 5 \/ d = 6
              \/ d = 7 \/ d = 8 \/ d = 9 \/ d = 10 \/ d = 11 \/ d = 12
              \/ d = 13 \/ d = 14 \/ d = 15) by lia.
  repeat (destruct H as [-> | H]; [ reflexivity | ]). subst d; reflexivity.
Qed.

Lemma parse_digits_hex ds :
  forall acc,
    Forall (fun d => 0 <= d < 16) ds ->
    parse_digits 16 (string_of_list_ascii (map Sha1.hex_digit ds)) acc
    = match ds with
      | [] => acc
      | _ => Some (hex_value ds (match acc with Some a => a | None => 0 end))
      end.
Proof.
  induction ds as [ | d ds IH]; intros acc Hds; [ reflexivity | ].
  inversion Hds as [ | ? ? Hd Hrest]; subst.
  cbn [map string_of_list_ascii parse_digits].
  rewrite (digit_value_hex_digit d Hd).
  destruct (Z.ltb_spec d 16); [ | lia ].
  rewrite IH by exact Hrest.
  destruct ds; destruct acc; reflexivity.
Qed.

(** A string of hexadecimal digits has no white space, sign or radix
    prefix for [parseInt] to strip. *)
Lemma parseInt_hex a b ds :
  0 <= a < 16 -> 0 <= b < 16 ->
  parseInt (string_of_list_ascii (map Sha1.hex_digit (a :: b :: ds))) 16
  = parse_digits 16 (string_of_list_ascii (map Sha1.hex_digit (a :: b :: ds))) None.
Proof.
  intros Ha Hb.
  assert (H : a = 0 \/ a = 1 \/ a = 2 \/ a = 3 \/ a = 4 \/ a = 5 \/ a = 6
              \/ a = 7 \/ a = 8 \/ a = 9 \/ a = 10 \/ a = 11 \/ a = 12
              \/ a = 13 \/ a = 14 \/ a = 15) by lia.
  assert (H' : b = 0 \/ b = 1 \/ b = 2 \/ b = 3 \/ b = 4 \/ b = 5 \/ b = 6
              \/ b = 7 \/ b = 8 \/ b = 9 \/ b = 10 \/ b = 11 \/ b = 12
              \/ b = 13 \/ b = 14 \/ b = 15) by lia.
  clear Ha Hb.
  repeat (destruct H as [-> | H]);
    try subst a;
    repeat (destruct H' as [-> | H']); try subst b; reflexivity.
Qed.

Lemma string_of_list_ascii_firstn n :
  forall l,
    substring 0 n (string_of_list_ascii l) = string_of_list_ascii (firstn n l).
Proof.
  induction n as [ | n IH]; intros [ | c l]; simpl; try reflexivity.
  rewrite IH; reflexivity.
Qed.

Lemma string_of_list_ascii_app_list l1 l2 :
  (string_of_list_ascii l1 ++ string_of_list_ascii l2)%string
  = string_of_list_ascii (l1 ++ l2).
Proof. induction l1 as [ | c l1 IH]; simpl; [ reflexivity | rewrite IH; reflexivity ]. Qed.

Lemma digest_words_shape s :
  exists h0 h1 h2 h3 h4, Sha1.digest_words s = [h0; h1; h2; h3; h4].
Proof.
  unfold Sha1.digest_words.
  destruct (fold_left _ _ _) as [[[[h0 h1] h2] h3] h4].
  exists h0, h1, h2, h3, h4; reflexivity.
Qed.

Lemma first_fifteen_digits h0 h1 h2 h3 h4 :
  substring 0 15
    (fold_right (fun w acc => (Sha1.hex_of 8 w ++ acc)%string) EmptyString
       [h0; h1; h2; h3; h4])
  = string_of_list_ascii
      (map Sha1.hex_digit (Sha1.nibbles 8 h0 ++ Sha1.nibbles 7 (h1 / 16))).
Proof.
  cbn [fold_right].
  rewrite !hex_of_nibbles.
  change EmptyString with (string_of_list_ascii []).
  rewrite !string_of_list_ascii_app_list.
  rewrite string_of_list_ascii_firstn.
  f_equal.
  change (@nil ascii) with (map Sha1.hex_digit []).
  rewrite <- !map_app, firstn_map.
  f_equal.
  rewrite firstn_app, nibbles_length.
  rewrite (firstn_all2 (n := 15)) by (rewrite nibbles_length; lia).
  f_equal.
  replace (15 - 8)%nat with 7%nat by reflexivity.
  rewrite firstn_app, nibbles_length.
  replace (7 - 8)%nat with 0%nat by reflexivity.
  rewrite firstn_O, app_nil_r.
  rewrite (nibbles_succ 7 h1), firstn_app, nibbles_length.
  rewrite (firstn_all2 (n := 7)) by (rewrite nibbles_length; lia).
  replace (7 - 7)%nat with 0%nat by reflexivity.
  rewrite firstn_O, app_nil_r. reflexivity.
Qed.

Lemma parseInt_hex_digits ds :
  (2 <= List.length ds)%nat ->
  Forall (fun d => 0 <= d < 16) ds ->
  parseInt (string_of_list_ascii (map Sha1.hex_digit ds)) 16
  = Some (hex_value ds 0).
Proof.
  intros Hlen Hr.
  destruct ds as [ | a [ | b ds]]; simpl in Hlen; try lia.
  inversion Hr as [ | ? ? Ha Hr1]; subst.
  inversion Hr1 as [ | ? ? Hb Hr2]; subst.
  rewrite parseInt_hex by assumption.
  rewrite parse_digits_hex by exact Hr. reflexivity.
Qed.

Lemma top_sixty_bits a0 a1 a2 a3 a4 :
  0 <= a0 < 4294967296 -> 0 <= a1 < 4294967296 -> 0 <= a2 < 4294967296 ->
  0 <= a3 < 4294967296 -> 0 <= a4 < 4294967296 ->
  (((((0 * 4294967296 + a0) * 4294967296 + a1) * 4294967296 + a2)
    * 4294967296 + a3) * 4294967296 + a4)
  / 1267650600228229401496703205376
  = a0 * 268435456 + a1 / 16
  /\ 0 <= a0 * 268435456 + a1 / 16 < 1152921504606846976.
Proof.
  intros B0 B1 B2 B3 B4.
  pose proof (Z.div_mod a1 16 ltac:(discriminate)) as D1.
  pose proof (Z.mod_pos_bound a1 16 eq_refl) as R1.
  generalize dependent (a1 mod 16). generalize dependent (a1 / 16).
  intros q1 r1 D1 R1. split; [ | lia ].
  symmetry.
  apply Z.div_unique with
    (r := r1 * 79228162514264337593543950336 + a2 * 18446744073709551616
          + a3 * 4294967296 + a4); [ left | ]; lia.
Qed.

Lemma hex_value_app l1 l2 a :
  hex_value (l1 ++ l2) a = hex_value l2 (hex_value l1 a).
Proof. unfold hex_value. apply fold_left_app. Qed.

Lemma fold_left_five {A B : Type} (f : A -> B -> A) a b0 b1 b2 b3 b4 :
  fold_left f [b0; b1; b2; b3; b4] a = f (f (f (f (f a b0) b1) b2) b3) b4.
Proof. reflexivity. Qed.

(** The integer the code reads from the first fifteen hexadecimal digits
    is the top sixty bits of the 160-bit digest. *)
Lemma hash_subset_is_top_bits key distinctId :
  integerRepresentationOfHashSubset key distinctId
  = Some (Sha1.digest (key ++ "." ++ distinctId)%string / 2 ^ 100)
  /\ 0 <= Sha1.digest (key ++ "." ++ distinctId)%string / 2 ^ 100 < 2 ^ 60.
Proof.
  unfold integerRepresentationOfHashSubset, Sha1.hexdigest, Sha1.digest.
  destruct (digest_words_shape (key ++ "." ++ distinctId)%string)
    as (h0 & h1 & h2 & h3 & h4 & ->).
  rewrite first_fifteen_digits.
  rewrite parseInt_hex_digits;
    [ | rewrite length_app, !nibbles_length; simpl; lia
      | apply Forall_app; split; apply nibbles_range ].
  rewrite hex_value_app, !nibbles_value.
  rewrite fold_left_five.
  replace (16 ^ Z.of_nat 8) with 4294967296 by reflexivity.
  replace (16 ^ Z.of_nat 7) with 268435456 by reflexivity.
  replace (2 ^ 32) with 4294967296 by reflexivity.
  replace (2 ^ 100) with 1267650600228229401496703205376 by reflexivity.
  replace (2 ^ 60) with 1152921504606846976 by reflexivity.
  assert (H1 : (h1 / 16) mod 268435456 = (h1 mod 4294967296) / 16).
  { replace 4294967296 with (16 * 268435456) by reflexivity.
    rewrite Z.rem_mul_r by lia.
    rewrite (Z.mul_comm 16), Z.div_add by lia.
    rewrite (Z.div_small (h1 mod 16) 16) by (apply Z.mod_pos_bound; lia).
    reflexivity. }
  rewrite H1. clear H1.
  destruct (top_sixty_bits (h0 mod 4294967296) (h1 mod 4294967296)
              (h2 mod 4294967296) (h3 mod 4294967296) (h4 mod 4294967296))
    as [Hq Hb]; try (apply Z.mod_pos_bound; reflexivity).
  rewrite Hq. split; [ f_equal; ring | exact Hb ].
Qed.

(** C1: with a rollout percentage that is not falsy, the decision reads
    the SHA-1 digest of "<key>.<distinctId>", takes its first fifteen
    hexadecimal digits (the top sixty bits of the digest) as an integer,
    divides by the constant 0xFFFFFFFFFFFFFFF and compares with the
    percentage over 100; for key "a" and subject "b" the digest is
    69f6642c..., the quotient is the Number written 0.4139158829615955,
    42 percent enables the flag and 40 percent does not. *)
Theorem C1_rollout_hash_decision :
  forall (key distinctId : string) (rolloutPercentage : jsvalue),
    ToBoolean rolloutPercentage = true ->
    integerRepresentationOfHashSubset key distinctId
    = parseInt (substring 0 15 (Sha1.hexdigest (key ++ "." ++ distinctId)%string)) 16
    /\ integerRepresentationOfHashSubset key distinctId
       = Some (Sha1.digest (key ++ "." ++ distinctId)%string / 2 ^ 100)
    /\ _isSimpleFlagEnabled key distinctId rolloutPercentage
       = (number_of_Z (Sha1.digest (key ++ "." ++ distinctId)%string / 2 ^ 100)
          / number_of_Z 0xfffffffffffffff
          <=? ToNumber rolloutPercentage / 100)%float
    /\ Sha1.hexdigest "a.b" = "69f6642c9d71b463485b4faf4e989dc3fe77a8c6"
    /\ hash_quotient "a" "b" = 0.4139158829615955%float
    /\ _isSimpleFlagEnabled "a" "b" (JSnumber 42) = true
    /\ _isSimpleFlagEnabled "a" "b" (JSnumber 40) = false.
Proof.
  intros key distinctId rolloutPercentage Htruthy.
  destruct (hash_subset_is_top_bits key distinctId) as [Hint _].
  split; [ reflexivity | ].
  split; [ exact Hint | ].
  split.
  - unfold _isSimpleFlagEnabled, hash_quotient.
    rewrite Htruthy, Hint. reflexivity.
  - repeat split; vm_compute; reflexivity.
Qed.

Lemma C1_rollout_hash_decision_witness :
  ToBoolean (JSnumber 42) = true
  /\ _isSimpleFlagEnabled "a" "b" (JSnumber 42)
     = (number_of_Z (Sha1.digest "a.b" / 2 ^ 100)
        / number_of_Z 0xfffffffffffffff <=? 42 / 100)%float.
Proof.
  split; [ reflexivity | ].
  apply (C1_rollout_hash_decision "a" "b" (JSnumber 42)). reflexivity.
Defined.

(** C9: whatever the key and the subject, a rollout percentage that is
    absent, null, zero or otherwise falsy enables the flag. *)
Theorem C9_falsy_rollout_enables :
  forall (key distinctId : string) (rolloutPercentage : jsvalue),
    ToBoolean rolloutPercentage = false ->
    _isSimpleFlagEnabled key distinctId rolloutPercentage = true.
Proof.
  intros key distinctId rolloutPercentage Hfalsy.
  unfold _isSimpleFlagEnabled. rewrite Hfalsy. reflexivity.
Qed.

Lemma C9_falsy_rollout_enables_witness :
  ToBoolean (JSnumber 0) = false
  /\ _isSimpleFlagEnabled "a" "b" (JSnumber 0) = true.
Proof.
  split; [ reflexivity | ].
  apply (C9_falsy_rollout_enables "a" "b" (JSnumber 0)). reflexivity.
Defined.

(** C7 (counterexample): for key "a" and subject "b" the flag is enabled
    at 0 percent and disabled at 40 percent. *)
Lemma C7_zero_percent_counterexample :
  ~ (forall key distinctId (p1 p2 : float),
        (p1 <? p2)%float = true ->
        _isSimpleFlagEnabled key distinctId (JSnumber p1) = true ->
        _isSimpleFlagEnabled key distinctId (JSnumber p2) = true).
Proof.
  intros H.
  specialize (H "a" "b" 0%float 40%float).
  vm_compute in H.
  specialize (H eq_refl eq_refl). discriminate H.
Qed.

(** The Number 100 and the constant 2^60 as binary64 values. *)
Lemma Prim2SF_100 : Prim2SF 100%float = S754_finite false 7036874417766400 (-46).
Proof. vm_compute. reflexivity. Qed.

Lemma Prim2SF_LONG_SCALE :
  Prim2SF LONG_SCALE = S754_finite false 4503599627370496 8.
Proof. vm_compute. reflexivity. Qed.

(** The quotient of the decision lies between 0 and 1. *)
Lemma hash_quotient_range key distinctId :
  (0 <=? hash_quotient key distinctId)%float = true
  /\ (hash_quotient key distinctId <=? 1)%float = true.
Proof.
  unfold hash_quotient.
  destruct (hash_subset_is_top_bits key distinctId) as [-> [Hlo Hhi]].
  cbn [number_of_parse].
  set (z := Sha1.digest (key ++ "." ++ distinctId)%string / 2 ^ 100) in *.
  split.
  - replace 0%float with (number_of_Z 0 / LONG_SCALE)%float
      by (vm_compute; reflexivity).
    apply (number_div_mono _ _ _ _ _ Prim2SF_LONG_SCALE).
    apply number_of_Z_mono; lia.
  - replace 1%float with (number_of_Z (2 ^ 60 - 1) / LONG_SCALE)%float
      by (vm_compute; reflexivity).
    apply (number_div_mono _ _ _ _ _ Prim2SF_LONG_SCALE).
    apply number_of_Z_mono; lia.
Qed.

(** C7 (amended): for a fixed key and subject the decision depends on
    nothing but its inputs, and it is monotone in the percentage as
    long as the smaller percentage is not falsy: for Numbers p1 < p2
    with p1 neither zero nor NaN, if the flag is enabled at p1 it is
    enabled at p2. *)
Theorem C7_rollout_monotone :
  forall (key distinctId : string) (p1 p2 : float),
    ToBoolean (JSnumber p1) = true ->
    (p1 <? p2)%float = true ->
    _isSimpleFlagEnabled key distinctId (JSnumber p1) = true ->
    _isSimpleFlagEnabled key distinctId (JSnumber p2) = true
    /\ forall key' distinctId' r r',
         key = key' -> distinctId = distinctId' -> r = r' ->
         _isSimpleFlagEnabled key distinctId r
         = _isSimpleFlagEnabled key' distinctId' r'.
Proof.
  intros key distinctId p1 p2 Htruthy Hlt Hen. split.
  - unfold _isSimpleFlagEnabled in *. rewrite Htruthy in Hen.
    cbn [negb ToNumber] in Hen |- *.
    destruct (ToBoolean (JSnumber p2)); [ | reflexivity ]. cbn [negb].
    apply (number_leb_trans _ _ _ Hen).
    apply (number_div_mono _ _ _ _ _ Prim2SF_100).
    apply number_ltb_leb; exact Hlt.
  - intros key' distinctId' r r' -> -> ->. reflexivity.
Qed.

Lemma C7_rollout_monotone_witness :
  ToBoolean (JSnumber 42) = true
  /\ (42 <? 50)%float = true
  /\ _isSimpleFlagEnabled "a" "b" (JSnumber 42) = true
  /\ _isSimpleFlagEnabled "a" "b" (JSnumber 50) = true.
Proof.
  split; [ reflexivity | ]. split; [ reflexivity | ].
  split; [ vm_compute; reflexivity | ].
  apply (C7_rollout_monotone "a" "b" 42%float 50%float);
    vm_compute; reflexivity.
Defined.

(** C10: whatever the key and the subject, the quotient of the decision
    lies in the closed interval from 0 to 1; the value 1 is reached, by
    the digits fffffffffffffff; and a rollout percentage of 100 enables
    the flag for every subject. *)
Theorem C10_quotient_in_unit_interval :
  forall key distinctId : string,
    (0 <=? hash_quotient key distinctId)%float = true
    /\ (hash_quotient key distinctId <=? 1)%float = true
    /\ (number_of_parse (parseInt "fffffffffffffff" 16) / LONG_SCALE)%float
       = 1%float
    /\ _isSimpleFlagEnabled key distinctId (JSnumber 100) = true.
Proof.
  intros key distinctId.
  destruct (hash_quotient_range key distinctId) as [Hlo Hhi].
  split; [ exact Hlo | ]. split; [ exact Hhi | ].
  split; [ vm_compute; reflexivity | ].
  unfold _isSimpleFlagEnabled.
  replace (ToBoolean (JSnumber 100)) with true by (vm_compute; reflexivity).
  cbn [negb ToNumber].
  replace (100 / 100)%float with 1%float by (vm_compute; reflexivity).
  exact Hhi.
Qed.

End RolloutClaims.

(* ================================================================== *)
(** * The poller over its lifetime                                     *)
(* ================================================================== *)

Section PollerBehaviour.

Import Poller.

Lemma request_flags net p :
  _request net p "api/feature_flag" "GET" true None []
  = match net (flags_request p) with
    | Fulfilled res =>
        if negb (ok res)
        then Rejected (new_Error
               "Request to api/feature_flag failed with error: Failed to fetch request")
        else Fulfilled res
    | Rejected err =>
        Rejected (new_Error
          ("Request to api/feature_flag failed with error: " ++ error_message err))
    end.
Proof. reflexivity. Qed.

Lemma request_decide net p distinctId groups :
  _request net p "decide" "POST" false (Some distinctId) groups
  = match net (decide_request p distinctId groups) with
    | Fulfilled res =>
        if negb (ok res)
        then Rejected (new_Error
               "Request to decide failed with error: Failed to fetch request")
        else Fulfilled res
    | Rejected err =>
        Rejected (new_Error
          ("Request to decide failed with error: " ++ error_message err))
    end.
Proof. reflexivity. Qed.

(** A load whose request is answered by an ok response that lists flags
    installs the active ones, in the order listed. *)
Lemma load_success net p res js rs :
  net (flags_request p) = Fulfilled res ->
  ok res = true -> json res = Some js -> results js = Some rs ->
  _loadFeatureFlags net p
  = (set_loaded (filter active rs) (set_poller (Some (pollingInterval p)) p),
     Fulfilled tt).
Proof.
  intros Hnet Hok Hjs Hrs. unfold _loadFeatureFlags, load_body.
  rewrite request_flags.
  change (flags_request (set_poller (Some (pollingInterval p)) p))
    with (flags_request p).
  rewrite Hnet, Hok. cbn [negb].
  rewrite (ok_not_401 res Hok), Hjs, Hok, Hrs. reflexivity.
Qed.

(** A load re-arms the timer and then either changes nothing else or,
    on an ok answer that lists flags, installs the active ones. *)
Lemma load_cases net p :
  _loadFeatureFlags net p
  = (set_poller (Some (pollingInterval p)) p, Fulfilled tt)
  \/ exists res js rs,
       net (flags_request p) = Fulfilled res
       /\ ok res = true /\ json res = Some js /\ results js = Some rs
       /\ _loadFeatureFlags net p
          = (set_loaded (filter active rs)
               (set_poller (Some (pollingInterval p)) p), Fulfilled tt).
Proof.
  unfold _loadFeatureFlags.
  destruct (load_body net _) as [p2 [[] | err]] eqn:Hb.
  - revert Hb. unfold load_body. rewrite request_flags.
    change (flags_request (set_poller (Some (pollingInterval p)) p))
      with (flags_request p).
    destruct (net (flags_request p)) as [r | e]; [ | discriminate ].
    destruct (ok r) eqn:Hok; [ | discriminate ]. cbn [negb].
    destruct (status r =? 401); [ discriminate | ].
    destruct (json r) as [js | ] eqn:Hjs; [ | discriminate ].
    rewrite Hok.
    destruct (results js) as [rs | ] eqn:Hrs; [ | discriminate ].
    intros H; injection H as <-. right; exists r, js, rs; auto.
  - apply load_body_error in Hb as [-> ->]. left; reflexivity.
Qed.

Lemma isFeatureEnabled_state net p key distinctId defaultResult groups :
  fst (fst (isFeatureEnabled net p key distinctId defaultResult groups))
  = fst (loadFeatureFlags net p false).
Proof.
  unfold isFeatureEnabled.
  pose proof (loadFeatureFlags_fulfils net p false) as Hload.
  destruct (loadFeatureFlags net p false) as [p1 r]; simpl in *; subst r.
  destruct (loadedSuccessfullyOnce p1); simpl; [ | reflexivity ].
  destruct (find _ _); reflexivity.
Qed.

(** What one operation can do to a poller. *)
Lemma step_cases net o p :
  step net o p = p
  \/ step net o p = set_poller None p
  \/ step net o p = set_poller (Some (pollingInterval p)) p
  \/ exists rs,
       step net o p
       = set_loaded (filter active rs)
           (set_poller (Some (pollingInterval p)) p).
Proof.
  assert (Hload : forall force,
    fst (loadFeatureFlags net p force) = p
    \/ fst (loadFeatureFlags net p force)
       = set_poller (Some (pollingInterval p)) p
    \/ exists rs, fst (loadFeatureFlags net p force)
                  = set_loaded (filter active rs)
                      (set_poller (Some (pollingInterval p)) p)).
  { intros force. unfold loadFeatureFlags.
    destruct (_ || _); [ | left; reflexivity ].
    destruct (load_cases net p) as [-> | (r & js & rs & _ & _ & _ & _ & ->)];
      [ right; left; reflexivity | right; right; exists rs; reflexivity ]. }
  destruct o as [force | | key d def g | ]; cbn [step].
  - destruct (Hload force) as [H | [H | H]]; auto.
  - destruct (poller p); [ | auto ].
    unfold poller_tick.
    destruct (load_cases net p) as [-> | (r & js & rs & _ & _ & _ & _ & ->)];
      simpl; eauto.
  - rewrite isFeatureEnabled_state.
    destruct (Hload false) as [H | [H | H]]; auto.
  - unfold stopPoller. destruct (poller p); auto.
Qed.

Lemma filter_active_all rs :
  Forall (fun flag => active flag = true) (filter active rs).
Proof.
  apply Forall_forall. intros f Hf. apply filter_In in Hf as [_ H]; exact H.
Qed.

(** X1: whatever is done to a poller the constructor built, and whatever
    the network does meanwhile: its configuration is never touched, its
    table holds active flags only and is empty as long as no load has
    succeeded, and a pending refresh timer runs for the polling
    interval. *)
Theorem poller_invariant_kept :
  forall (trace : list ((Request -> settled Response) * op))
         (interval : Z) (personal project hst : string),
    invariant interval personal project hst
      (run_trace trace (new interval personal project hst)).
Proof.
  intros trace interval personal project hst.
  assert (H0 : invariant interval personal project hst
                 (new interval personal project hst)).
  { unfold invariant; simpl. repeat split; auto. }
  revert H0. generalize (new interval personal project hst) as p.
  induction trace as [ | [net o] rest IH]; intros p Hp; [ exact Hp | ].
  cbn [run_trace]. apply IH.
  destruct Hp as (Hi & Hpk & Hjk & Hh & Hact & Hempty & Htimer).
  destruct (step_cases net o p) as [-> | [-> | [-> | [rs ->]]]];
    unfold invariant; simpl; rewrite ?Hi;
    repeat split; auto using filter_active_all; discriminate.
Qed.

(** X2: once a load has succeeded the poller stays loaded, whatever is done
    to it afterwards and whatever the network does. *)
Theorem loaded_once_stays_loaded :
  forall (trace : list ((Request -> settled Response) * op))
         (p : FeatureFlagsPoller),
    loadedSuccessfullyOnce p = true ->
    loadedSuccessfullyOnce (run_trace trace p) = true.
Proof.
  induction trace as [ | [net o] rest IH]; intros p Hp; [ exact Hp | ].
  cbn [run_trace]. apply IH.
  destruct (step_cases net o p) as [-> | [-> | [-> | [rs ->]]]];
    simpl; auto.
Qed.

Lemma loaded_once_stays_loaded_witness :
  loadedSuccessfullyOnce (set_loaded [] sample_poller) = true
  /\ loadedSuccessfullyOnce
       (run_trace
          [(unreachable, Load true);
           (fun _ => Fulfilled unauthorized, Tick);
           (unreachable, IsEnabled "beta" "user-1" false [])]
          (set_loaded [] sample_poller))
     = true.
Proof.
  split; [ reflexivity | ].
  apply (loaded_once_stays_loaded
           [(unreachable, Load true);
            (fun _ => Fulfilled unauthorized, Tick);
            (unreachable, IsEnabled "beta" "user-1" false [])]
           (set_loaded [] sample_poller)).
  reflexivity.
Defined.


Lemma find_filter {A : Type} (P Q : A -> bool) (l : list A) :
  find P (filter Q l) = find (fun x => Q x && P x) l.
Proof.
  induction l as [ | a l IH]; [ reflexivity | ]. simpl.
  destruct (Q a); simpl; [ | exact IH ].
  destruct (P a); [ reflexivity | exact IH ].
Qed.

(** The poller after a load answered by an ok response that lists
    [rs]. *)
Lemma reload_success net p res js rs :
  net (flags_request p) = Fulfilled res ->
  ok res = true -> json res = Some js -> results js = Some rs ->
  fst (_loadFeatureFlags net p)
  = set_loaded (filter active rs) (set_poller (Some (pollingInterval p)) p).
Proof.
  intros Hnet Hok Hjs Hrs.
  rewrite (load_success net p res js rs) by assumption.
  reflexivity.
Qed.

(** The evaluation of a key on a loaded poller. *)
Lemma isFeatureEnabled_loaded net p key distinctId defaultResult groups :
  loadedSuccessfullyOnce p = true ->
  isFeatureEnabled net p key distinctId defaultResult groups
  = match find (fun flag => String.eqb key (flag_key flag)) (featureFlags p) with
    | None => (p, Fulfilled defaultResult, [])
    | Some flag =>
        let r := if is_simple_flag flag
                 then _isSimpleFlagEnabled key distinctId (rollout_percentage flag)
                 else decide net p key distinctId defaultResult groups in
        (p, Fulfilled r, [(key, distinctId, r)])
    end.
Proof.
  intros Hl. unfold isFeatureEnabled, loadFeatureFlags.
  rewrite Hl. cbn [negb orb]. rewrite Hl. reflexivity.
Qed.

(** X4: a flag that a successful load (the first one, a forced reload or a
    refresh by the timer) does not find listed as active, because it is
    absent from the listing or listed inactive only, is not evaluated
    any more: the call returns the default and reports nothing,
    whatever the table held before. *)
Theorem unlisted_flag_gives_default :
  forall (net net' : Request -> settled Response) (p : FeatureFlagsPoller)
         (res : Response) (js : JsonBody) (rs : list FeatureFlag)
         (key distinctId : string) (defaultResult : bool)
         (groups : list (string * string)),
    net (flags_request p) = Fulfilled res ->
    ok res = true -> json res = Some js -> results js = Some rs ->
    (forall flag, In flag rs -> flag_key flag = key -> active flag = false) ->
    isFeatureEnabled net' (fst (_loadFeatureFlags net p))
      key distinctId defaultResult groups
    = (fst (_loadFeatureFlags net p), Fulfilled defaultResult, []).
Proof.
  intros net net' p res js rs key distinctId defaultResult groups
         Hnet Hok Hjs Hrs Hnone.
  rewrite (reload_success net p res js rs) by assumption.
  rewrite isFeatureEnabled_loaded by reflexivity.
  cbn [featureFlags set_loaded]. rewrite find_filter.
  replace (find _ rs) with (@None FeatureFlag); [ reflexivity | ].
  symmetry. clear - Hnone. induction rs as [ | f rs IH]; [ reflexivity | ].
  simpl. destruct (active f) eqn:Ha; simpl.
  - destruct (String.eqb_spec key (flag_key f)) as [He | _].
    + rewrite (Hnone f (or_introl eq_refl) (eq_sym He)) in Ha. discriminate.
    + apply IH. intros f' Hf'; apply Hnone; right; exact Hf'.
  - apply IH. intros f' Hf'; apply Hnone; right; exact Hf'.
Qed.

Lemma unlisted_flag_gives_default_witness :
  isFeatureEnabled unreachable
    (fst (_loadFeatureFlags
            (serving [simple_flag "old" JSnull false;
                      simple_flag "beta" (JSnumber 42) true] [])
            (set_loaded [simple_flag "old" JSnull true] sample_poller)))
    "old" "user-1" false []
  = (fst (_loadFeatureFlags
            (serving [simple_flag "old" JSnull false;
                      simple_flag "beta" (JSnumber 42) true] [])
            (set_loaded [simple_flag "old" JSnull true] sample_poller)),
     Fulfilled false, []).
Proof.
  apply (unlisted_flag_gives_default
           (serving [simple_flag "old" JSnull false;
                     simple_flag "beta" (JSnumber 42) true] [])
           unreachable
           (set_loaded [simple_flag "old" JSnull true] sample_poller)
           (listing [simple_flag "old" JSnull false;
                     simple_flag "beta" (JSnumber 42) true])
           {| results := Some [simple_flag "old" JSnull false;
                               simple_flag "beta" (JSnumber 42) true];
              featureFlags_field := None |}
           [simple_flag "old" JSnull false;
            simple_flag "beta" (JSnumber 42) true]);
    try reflexivity.
  intros flag [<- | [<- | []]] Hkey; [ reflexivity | discriminate Hkey ].
Defined.

(** X5: when the listing of a successful load holds several flags of one
    key, the first active one decides: for a simple flag the call
    returns the local decision on that flag's percentage and reports it
    once, whatever follows it in the listing. *)
Theorem first_active_flag_decides :
  forall (net net' : Request -> settled Response) (p : FeatureFlagsPoller)
         (res : Response) (js : JsonBody)
         (before after : list FeatureFlag) (flag : FeatureFlag)
         (distinctId : string) (defaultResult : bool)
         (groups : list (string * string)),
    net (flags_request p) = Fulfilled res ->
    ok res = true -> json res = Some js ->
    results js = Some (before ++ flag :: after) ->
    (forall flag', In flag' before ->
                   flag_key flag' = flag_key flag -> active flag' = false) ->
    active flag = true -> is_simple_flag flag = true ->
    isFeatureEnabled net' (fst (_loadFeatureFlags net p))
      (flag_key flag) distinctId defaultResult groups
    = (fst (_loadFeatureFlags net p),
       Fulfilled (_isSimpleFlagEnabled (flag_key flag) distinctId
                    (rollout_percentage flag)),
       [(flag_key flag, distinctId,
         _isSimpleFlagEnabled (flag_key flag) distinctId
           (rollout_percentage flag))]).
Proof.
  intros net net' p res js before after flag distinctId defaultResult groups
         Hnet Hok Hjs Hrs Hbefore Hact Hsimple.
  rewrite (reload_success net p res js (before ++ flag :: after)) by assumption.
  rewrite isFeatureEnabled_loaded by reflexivity.
  cbn [featureFlags set_loaded]. rewrite find_filter.
  replace (find _ (before ++ flag :: after)) with (Some flag).
  - cbv zeta. rewrite Hsimple. reflexivity.
  - symmetry. clear - Hbefore Hact.
    induction before as [ | f l IH]; simpl.
    + rewrite Hact, String.eqb_refl. reflexivity.
    + destruct (active f) eqn:Ha; simpl.
      * destruct (String.eqb_spec (flag_key flag) (flag_key f)) as [He | _].
        -- rewrite (Hbefore f (or_introl eq_refl) (eq_sym He)) in Ha.
           discriminate.
        -- apply IH. intros f' Hf'; apply Hbefore; right; exact Hf'.
      * apply IH. intros f' Hf'; apply Hbefore; right; exact Hf'.
Qed.

Lemma first_active_flag_decides_witness :
  isFeatureEnabled unreachable
    (fst (_loadFeatureFlags
            (serving [simple_flag "beta" (JSnumber 40) false;
                      simple_flag "a" (JSnumber 42) true;
                      simple_flag "a" (JSnumber 40) true] [])
            sample_poller))
    "a" "b" false []
  = (fst (_loadFeatureFlags
            (serving [simple_flag "beta" (JSnumber 40) false;
                      simple_flag "a" (JSnumber 42) true;
                      simple_flag "a" (JSnumber 40) true] [])
            sample_poller),
     Fulfilled (_isSimpleFlagEnabled "a" "b" (JSnumber 42)),
     [("a", "b", _isSimpleFlagEnabled "a" "b" (JSnumber 42))]).
Proof.
  apply (first_active_flag_decides
           (serving [simple_flag "beta" (JSnumber 40) false;
                     simple_flag "a" (JSnumber 42) true;
                     simple_flag "a" (JSnumber 40) true] [])
           unreachable sample_poller
           (listing [simple_flag "beta" (JSnumber 40) false;
                     simple_flag "a" (JSnumber 42) true;
                     simple_flag "a" (JSnumber 40) true])
           {| results := Some [simple_flag "beta" (JSnumber 40) false;
                               simple_flag "a" (JSnumber 42) true;
                               simple_flag "a" (JSnumber 40) true];
              featureFlags_field := None |}
           [simple_flag "beta" (JSnumber 40) false]
           [simple_flag "a" (JSnumber 40) true]
           (simple_flag "a" (JSnumber 42) true)
           "b" false []);
    try reflexivity.
  intros flag' [<- | []] _; reflexivity.
Defined.

(** X6: on a loaded poller, a key that is not in the table or names a
    simple flag is evaluated locally: the result is the same whatever
    the network does, and the poller is left exactly as it was (no
    load, no timer). *)
Theorem local_evaluation_needs_no_network :
  forall (net net' : Request -> settled Response) (p : FeatureFlagsPoller)
         (key distinctId : string) (defaultResult : bool)
         (groups : list (string * string)),
    loadedSuccessfullyOnce p = true ->
    (forall flag, lookup p key = Some flag -> is_simple_flag flag = true) ->
    isFeatureEnabled net p key distinctId defaultResult groups
    = isFeatureEnabled net' p key distinctId defaultResult groups
    /\ fst (fst (isFeatureEnabled net p key distinctId defaultResult groups))
       = p.
Proof.
  intros net net' p key distinctId defaultResult groups Hl Hsimple.
  rewrite !isFeatureEnabled_loaded by exact Hl.
  unfold lookup in Hsimple. rewrite Hl in Hsimple.
  destruct (find _ (featureFlags p)) as [flag | ]; [ | split; reflexivity ].
  cbv zeta. rewrite (Hsimple flag eq_refl). split; reflexivity.
Qed.

Lemma local_evaluation_needs_no_network_witness :
  isFeatureEnabled unreachable
    (set_loaded [simple_flag "beta" (JSnumber 42) true] sample_poller)
    "beta" "user-1" false []
  = isFeatureEnabled (serving [] ["beta"])
      (set_loaded [simple_flag "beta" (JSnumber 42) true] sample_poller)
      "beta" "user-1" false []
  /\ fst (fst (isFeatureEnabled unreachable
                 (set_loaded [simple_flag "beta" (JSnumber 42) true]
                    sample_poller)
                 "beta" "user-1" false []))
     = set_loaded [simple_flag "beta" (JSnumber 42) true] sample_poller.
Proof.
  apply (local_evaluation_needs_no_network unreachable (serving [] ["beta"])
           (set_loaded [simple_flag "beta" (JSnumber 42) true] sample_poller)
           "beta" "user-1" false []).
  - reflexivity.
  - intros flag H. vm_compute in H. injection H as <-. reflexivity.
Defined.

(** X7: a flag that is not simple is decided by the server: the call asks
    the decide endpoint, returns whether the key is among the
    [featureFlags] of an ok answer, and returns the default when the
    request fails, the answer is not ok, or its body has no usable
    [featureFlags]; in each case the result is reported once and the
    poller is left as it was. *)
Theorem remote_flag_follows_decide :
  forall (net : Request -> settled Response) (p : FeatureFlagsPoller)
         (flag : FeatureFlag) (key distinctId : string)
         (defaultResult : bool) (groups : list (string * string)),
    lookup p key = Some flag ->
    is_simple_flag flag = false ->
    exists result,
      isFeatureEnabled net p key distinctId defaultResult groups
      = (p, Fulfilled result, [(key, distinctId, result)])
      /\ (forall res js enabled,
             net (decide_request p distinctId groups) = Fulfilled res ->
             ok res = true -> json res = Some js ->
             featureFlags_field js = Some enabled ->
             (result = true <-> In key enabled))
      /\ ((forall res js enabled,
              net (decide_request p distinctId groups) = Fulfilled res ->
              ok res = true -> json res = Some js ->
              featureFlags_field js = Some enabled -> False) ->
          result = defaultResult).
Proof.
  intros net p flag key distinctId defaultResult groups Hlook Hremote.
  unfold lookup in Hlook.
  destruct (loadedSuccessfullyOnce p) eqn:Hl; [ | discriminate Hlook ].
  rewrite isFeatureEnabled_loaded by exact Hl.
  rewrite Hlook. cbv zeta. rewrite Hremote.
  eexists; split; [ reflexivity | ].
  unfold decide. rewrite request_decide.
  destruct (net (decide_request p distinctId groups)) as [r | e];
    [ | split; [ intros res js' enabled H; discriminate H | reflexivity ] ].
  destruct (ok r) eqn:Hok; cbn [negb];
    [ rewrite Hok
    | split; [ intros res js' enabled H Hok'; injection H as <-; congruence
             | reflexivity ] ].
  destruct (json r) as [js | ] eqn:Hj;
    [ | split; [ intros res js' enabled H _ Hjs; injection H as <-; congruence
               | reflexivity ] ].
  destruct (featureFlags_field js) as [l | ] eqn:Hfield;
    [ | split; [ intros res js' enabled H _ Hjs Hf; injection H as <-;
                 congruence
               | reflexivity ] ].
  split.
  - intros res js' enabled H _ Hjs Hf. injection H as <-.
    assert (enabled = l) as -> by congruence. clear.
    induction l as [ | x l IH]; simpl.
    + split; [ discriminate | intros [] ].
    + destruct (String.eqb_spec key x) as [-> | Hne]; simpl.
      * split; auto.
      * rewrite IH. split; [ auto | ].
        intros [H | H]; [ congruence | exact H ].
  - intros Hnone. exfalso.
    exact (Hnone r js l eq_refl Hok Hj Hfield).
Qed.

Lemma remote_flag_follows_decide_witness :
  exists result,
    isFeatureEnabled (serving [] ["enabled-flag"])
      (set_loaded [remote_flag "enabled-flag"] sample_poller)
      "enabled-flag" "some id" false [("company", "id:5")]
    = (set_loaded [remote_flag "enabled-flag"] sample_poller,
       Fulfilled result, [("enabled-flag", "some id", result)])
    /\ result = true.
Proof.
  destruct (remote_flag_follows_decide (serving [] ["enabled-flag"])
              (set_loaded [remote_flag "enabled-flag"] sample_poller)
              (remote_flag "enabled-flag")
              "enabled-flag" "some id" false [("company", "id:5")]
              eq_refl eq_refl)
    as (result & Heq & Hin & _).
  exists result. split; [ exact Heq | ].
  apply (Hin (decision ["enabled-flag"])
             {| results := None; featureFlags_field := Some ["enabled-flag"] |}
             ["enabled-flag"]); try reflexivity.
  left; reflexivity.
Defined.

(** X8: after any load, [stopPoller] succeeds: it drops the refresh timer
    and keeps everything else.  Called again right away it throws a
    TypeError, the timer being [null], and changes nothing. *)
Theorem stopPoller_once :
  forall (net : Request -> settled Response) (p : FeatureFlagsPoller),
    stopPoller (fst (_loadFeatureFlags net p))
    = inr (set_poller None (fst (_loadFeatureFlags net p)))
    /\ stopPoller (set_poller None (fst (_loadFeatureFlags net p)))
       = inl null_unref_error.
Proof.
  intros net p.
  destruct (load_cases net p) as [-> | (r & js & rs & _ & _ & _ & _ & ->)];
    repeat split; reflexivity.
Qed.

(** X9: a loaded poller that was stopped is frozen: evaluations, loads that
    are not forced and further stops leave it exactly as it is, and no
    timer is there to fire; only [loadFeatureFlags(true)] refreshes it
    again. *)
Theorem stopped_loaded_poller_is_frozen :
  forall (trace : list ((Request -> settled Response) * op))
         (p : FeatureFlagsPoller),
    loadedSuccessfullyOnce p = true ->
    poller p = None ->
    forallb (fun x => negb (is_forced_load (snd x))) trace = true ->
    run_trace trace p = p.
Proof.
  induction trace as [ | [net o] rest IH]; intros p Hl Ht Hnf;
    [ reflexivity | ].
  cbn [run_trace forallb snd] in *.
  apply andb_prop in Hnf as [Ho Hrest].
  assert (Hstep : step net o p = p).
  { destruct o as [[ | ] | | key d def g | ]; cbn [step].
    - discriminate Ho.
    - unfold loadFeatureFlags. rewrite Hl. reflexivity.
    - rewrite Ht. reflexivity.
    - rewrite isFeatureEnabled_state. unfold loadFeatureFlags.
      rewrite Hl. reflexivity.
    - unfold stopPoller. rewrite Ht. reflexivity. }
  rewrite Hstep. apply IH; assumption.
Qed.

Lemma stopped_loaded_poller_is_frozen_witness :
  run_trace
    [(serving [] [], IsEnabled "beta" "user-1" false []);
     (serving [] [], Tick);
     (serving [] [], Load false);
     (serving [] [], Stop)]
    (set_loaded [simple_flag "beta" (JSnumber 42) true] sample_poller)
  = set_loaded [simple_flag "beta" (JSnumber 42) true] sample_poller.
Proof.
  apply (stopped_loaded_poller_is_frozen
           [(serving [] [], IsEnabled "beta" "user-1" false []);
            (serving [] [], Tick);
            (serving [] [], Load false);
            (serving [] [], Stop)]
           (set_loaded [simple_flag "beta" (JSnumber 42) true] sample_poller));
    reflexivity.
Defined.

(** X10: a poller that never loaded starts a load on every evaluation, and
    with it the refresh timer, even after [stopPoller]: stopping it
    does not end its polling. *)
Theorem unloaded_poller_resumes_polling :
  forall (net : Request -> settled Response) (p : FeatureFlagsPoller)
         (key distinctId : string) (defaultResult : bool)
         (groups : list (string * string)),
    loadedSuccessfullyOnce p = false ->
    fst (fst (isFeatureEnabled net (set_poller None p)
                key distinctId defaultResult groups))
    = fst (_loadFeatureFlags net p)
    /\ poller (fst (_loadFeatureFlags net p)) = Some (pollingInterval p).
Proof.
  intros net p key distinctId defaultResult groups Hl.
  rewrite isFeatureEnabled_state. unfold loadFeatureFlags.
  cbn [loadedSuccessfullyOnce set_poller]. rewrite Hl. cbn [negb orb].
  split.
  - unfold _loadFeatureFlags, load_body. rewrite !request_flags. reflexivity.
  - destruct (load_cases net p) as [-> | (r & js & rs & _ & _ & _ & _ & ->)];
      reflexivity.
Qed.

Lemma unloaded_poller_resumes_polling_witness :
  fst (fst (isFeatureEnabled unreachable (set_poller None sample_poller)
              "beta" "user-1" false []))
  = fst (_loadFeatureFlags unreachable sample_poller)
  /\ poller (fst (_loadFeatureFlags unreachable sample_poller))
     = Some (pollingInterval sample_poller).
Proof.
  apply (unloaded_poller_resumes_polling unreachable sample_poller
           "beta" "user-1" false []).
  reflexivity.
Defined.

(** X11: an evaluation on a poller that never loaded completes a load
    first and then evaluates on the refreshed poller; when that load
    does not succeed the call returns the default and reports
    nothing. *)
Theorem unloaded_evaluation_loads_first :
  forall (net : Request -> settled Response) (p : FeatureFlagsPoller)
         (key distinctId : string) (defaultResult : bool)
         (groups : list (string * string)),
    loadedSuccessfullyOnce p = false ->
    isFeatureEnabled net p key distinctId defaultResult groups
    = if loadedSuccessfullyOnce (fst (_loadFeatureFlags net p))
      then isFeatureEnabled net (fst (_loadFeatureFlags net p))
             key distinctId defaultResult groups
      else (fst (_loadFeatureFlags net p), Fulfilled defaultResult, []).
Proof.
  intros net p key distinctId defaultResult groups Hl.
  destruct (loadedSuccessfullyOnce (fst (_loadFeatureFlags net p))) eqn:Hl1.
  - rewrite (isFeatureEnabled_loaded net _ key distinctId defaultResult groups Hl1).
    unfold isFeatureEnabled, loadFeatureFlags. rewrite Hl. cbn [negb orb].
    pose proof (loadFeatureFlags_internal_fulfils net p) as Hf.
    destruct (_loadFeatureFlags net p) as [p1 r]; cbn [fst snd] in *; subst r.
    rewrite Hl1. reflexivity.
  - unfold isFeatureEnabled, loadFeatureFlags. rewrite Hl. cbn [negb orb].
    pose proof (loadFeatureFlags_internal_fulfils net p) as Hf.
    destruct (_loadFeatureFlags net p) as [p1 r]; cbn [fst snd] in *; subst r.
    rewrite Hl1. reflexivity.
Qed.

Lemma unloaded_evaluation_loads_first_witness :
  isFeatureEnabled (serving [simple_flag "beta" JSnull true] []) sample_poller
    "beta" "user-1" false []
  = (set_loaded [simple_flag "beta" JSnull true]
       (set_poller (Some 30000) sample_poller),
     Fulfilled true, [("beta", "user-1", true)])
  /\ isFeatureEnabled unreachable sample_poller "beta" "user-1" true []
     = (set_poller (Some 30000) sample_poller, Fulfilled true, []).
Proof.
  split.
  - rewrite (unloaded_evaluation_loads_first
               (serving [simple_flag "beta" JSnull true] []) sample_poller
               "beta" "user-1" false [] eq_refl).
    reflexivity.
  - rewrite (unloaded_evaluation_loads_first unreachable sample_poller
               "beta" "user-1" true [] eq_refl).
    reflexivity.
Defined.

End PollerBehaviour.

(* ================================================================== *)
(** * The rollout decision at the ends of the scale                    *)
(* ================================================================== *)

Section RolloutBounds.

(** A Number at or below -1 is neither zero nor NaN. *)
Lemma negative_is_truthy (p : float) :
  (p <=? -1)%float = true -> ToBoolean (JSnumber p) = true.
Proof.
  intros Hle. unfold ToBoolean, PrimFloat.is_zero, PrimFloat.is_nan.
  rewrite leb_spec in Hle. rewrite !eqb_spec.
  replace (Prim2SF (-1)) with (S754_finite true 4503599627370496 (-52)) in Hle
    by (vm_compute; reflexivity).
  replace (Prim2SF 0) with (S754_zero false) by (vm_compute; reflexivity).
  destruct (Prim2SF p) as [s | s | | s m e]; try discriminate Hle.
  - destruct s; [ reflexivity | discriminate Hle ].
  - unfold SFeqb, SFcompare. 
    destruct s; [ | discriminate Hle ].
    rewrite Z.compare_refl, Pos.compare_cont_refl. reflexivity.
Qed.

(** X12: a rollout percentage of 100 or more, infinity included, enables the
    flag for every key and subject; one of -1 or less disables it for
    every key and subject. *)
Theorem rollout_out_of_scale :
  forall (key distinctId : string) (p : float),
    ((100 <=? p)%float = true ->
     _isSimpleFlagEnabled key distinctId (JSnumber p) = true)
    /\ ((p <=? -1)%float = true ->
        _isSimpleFlagEnabled key distinctId (JSnumber p) = false).
Proof.
  intros key distinctId p.
  destruct (hash_quotient_range key distinctId) as [Hlo Hhi].
  split; intros Hp; unfold _isSimpleFlagEnabled.
  - destruct (ToBoolean (JSnumber p)); [ | reflexivity ].
    cbn [negb ToNumber].
    apply (number_leb_trans _ _ _ Hhi).
    replace 1%float with (100 / 100)%float by (vm_compute; reflexivity).
    apply (number_div_mono _ _ _ _ _ Prim2SF_100). exact Hp.
  - rewrite (negative_is_truthy p Hp). cbn [negb ToNumber].
    destruct (hash_quotient key distinctId <=? p / 100)%float eqn:Hq;
      [ | reflexivity ].
    exfalso.
    assert (H : (0 <=? -1 / 100)%float = true).
    { apply (number_leb_trans _ _ _ Hlo), (number_leb_trans _ _ _ Hq).
      apply (number_div_mono _ _ _ _ _ Prim2SF_100). exact Hp. }
    vm_compute in H. discriminate H.
Qed.

Lemma rollout_out_of_scale_witness :
  _isSimpleFlagEnabled "a" "b" (JSnumber 250) = true
  /\ _isSimpleFlagEnabled "a" "b" (JSnumber (-5)) = false.
Proof.
  split.
  - apply (proj1 (rollout_out_of_scale "a" "b" 250%float)). reflexivity.
  - apply (proj2 (rollout_out_of_scale "a" "b" (-5)%float)). reflexivity.
Defined.

End RolloutBounds.

(* ================================================================== *)
(** * The shape of a run of the retrying transport                     *)
(* ================================================================== *)

Section RetryBehaviour.

Import FetchRetry.

Lemma fetches_app a b : fetches (a ++ b) = fetches a ++ fetches b.
Proof.
  induction a as [ | [n | ms | ms] a IH]; simpl; congruence.
Qed.

Lemma backoffs_app a b : backoffs (a ++ b) = backoffs a ++ backoffs b.
Proof.
  induction a as [ | [n | ms | ms] a IH]; simpl; congruence.
Qed.

(** An attempt itself neither fetches again nor backs off. *)
Lemma attempt_events o s :
  fetches (fst (attempt o s)) = [] /\ backoffs (fst (attempt o s)) = [].
Proof.
  unfold attempt. destruct s as [res | e]; [ | split; reflexivity ].
  destruct (retryable res); [ | split; reflexivity ].
  destruct (retryAfter res) as [ra | ]; [ | split; reflexivity ].
  destruct (ra =? 0); [ split; reflexivity | ].
  destruct (ra >? maxRetryAfter o); split; reflexivity.
Qed.

Lemma transient_throws o s :
  transient o s -> exists e, snd (attempt o s) = Throws e.
Proof.
  destruct s as [res | e]; intros H.
  - exists (ResponseError res). apply attempt_retried; exact H.
  - exists e. apply attempt_network_error; exact H.
Qed.

(** A run goes on while attempts throw and delays remain, and ends at
    the first attempt that returns or bails. *)
Lemma retry_stops o fetch r :
  match r with Throws _ => False | _ => True end ->
  forall k delays n errors,
    (k <= List.length delays)%nat ->
    (forall i, (i < k)%nat -> transient o (fetch (n + i)%nat)) ->
    snd (attempt o (fetch (n + k)%nat)) = r ->
    snd (retry o fetch delays n errors) = settled_of_end r
    /\ fetches (fst (retry o fetch delays n errors)) = seq n (S k)
    /\ backoffs (fst (retry o fetch delays n errors)) = firstn k delays.
Proof.
  intros Hfinal. induction k as [ | k IH]; intros delays n errors Hk Htr Hend.
  - rewrite Nat.add_0_r in Hend.
    destruct (attempt_events o (fetch n)) as [Hf Hb].
    destruct delays as [ | d rest]; cbn [retry];
      destruct (attempt o (fetch n)) as [evs r']; cbn [fst snd] in *; subst r';
      destruct r as [res | e | e]; try contradiction;
      cbn [fst snd fetches backoffs settled_of_end seq firstn];
      rewrite Hf, Hb; auto.
  - destruct delays as [ | d rest]; [ simpl in Hk; lia | ].
    destruct (transient_throws o _ (Htr 0%nat (Nat.lt_0_succ _))) as [e He].
    rewrite Nat.add_0_r in He.
    destruct (attempt_events o (fetch n)) as [Hf Hb].
    specialize (IH rest (S n) (errors ++ [e])).
    cbn [retry].
    destruct (attempt o (fetch n)) as [evs r']; cbn [fst snd] in *; subst r'.
    destruct (retry o fetch rest (S n) (errors ++ [e])) as [evs' r'].
    cbn [fst snd] in *.
    destruct IH as (Hr & Hfs & Hbs).
    + simpl in Hk; lia.
    + intros i Hi. specialize (Htr (S i)).
      rewrite Nat.add_succ_r in Htr. apply Htr. lia.
    + rewrite Nat.add_succ_r in Hend. exact Hend.
    + split; [ exact Hr | ].
      cbn [fetches backoffs]. rewrite fetches_app, backoffs_app.
      cbn [fetches backoffs]. rewrite Hf, Hb, Hfs, Hbs. split; reflexivity.
Qed.

Lemma fetchRetry_events jitter ov fetch :
  fst (fetchRetry jitter ov fetch)
  = fst (retry (retryOpts ov) fetch (timeouts jitter (retryOpts ov)) 1 []).
Proof.
  unfold fetchRetry.
  destruct (retry _ fetch _ 1 []) as [evs [res | [res | m | nm m c t]]];
    reflexivity.
Qed.

Lemma fetchRetry_result jitter ov fetch :
  snd (fetchRetry jitter ov fetch)
  = match snd (retry (retryOpts ov) fetch
                 (timeouts jitter (retryOpts ov)) 1 []) with
    | Rejected (ResponseError res) => Fulfilled res
    | s => s
    end.
Proof.
  unfold fetchRetry.
  destruct (retry _ fetch _ 1 []) as [evs [res | [res | m | nm m c t]]];
    reflexivity.
Qed.

Lemma transient_from_one o fetch k :
  (forall i, (1 <= i <= k)%nat -> transient o (fetch i)) ->
  forall i, (i < k)%nat -> transient o (fetch (1 + i)%nat).
Proof. intros H i Hi. apply H. lia. Qed.

(** X13: a transient failure is recovered: when the first [k] attempts are
    retried, [k] within the retry limit, and the next one gets a
    response that is not retryable, the call returns that response
    after exactly [k + 1] attempts, numbered in order, having waited
    the first [k] backoff delays in order. *)
Theorem recovers_after_transient_failures :
  forall (jitter : nat -> Z -> Z) (ov : RetryOverrides)
         (fetch : nat -> settled Response) (k : nat) (res : Response),
    (k <= retries (retryOpts ov))%nat ->
    (forall i, (1 <= i <= k)%nat -> transient (retryOpts ov) (fetch i)) ->
    fetch (S k) = Fulfilled res ->
    retryable res = false ->
    snd (fetchRetry jitter ov fetch) = Fulfilled res
    /\ fetches (fst (fetchRetry jitter ov fetch)) = seq 1 (S k)
    /\ backoffs (fst (fetchRetry jitter ov fetch))
       = firstn k (timeouts jitter (retryOpts ov)).
Proof.
  intros jitter ov fetch k res Hk Htr Hf Hnr.
  rewrite fetchRetry_events, fetchRetry_result.
  destruct (retry_stops (retryOpts ov) fetch (Returns res) I k
              (timeouts jitter (retryOpts ov)) 1%nat [])
    as (Hr & Hfs & Hbs).
  - rewrite timeouts_length; exact Hk.
  - apply transient_from_one; exact Htr.
  - change (1 + k)%nat with (S k). rewrite Hf.
    unfold attempt. rewrite Hnr. reflexivity.
  - rewrite Hr. auto.
Qed.

Lemma recovers_after_transient_failures_witness :
  snd (fetchRetry (fun _ t => t) no_overrides
         (fun n => if (n <=? 2)%nat then Fulfilled unavailable
                   else Fulfilled all_good))
  = Fulfilled all_good
  /\ fetches (fst (fetchRetry (fun _ t => t) no_overrides
                     (fun n => if (n <=? 2)%nat then Fulfilled unavailable
                               else Fulfilled all_good)))
     = [1; 2; 3]%nat
  /\ backoffs (fst (fetchRetry (fun _ t => t) no_overrides
                      (fun n => if (n <=? 2)%nat then Fulfilled unavailable
                                else Fulfilled all_good)))
     = [10; 60].
Proof.
  apply (recovers_after_transient_failures (fun _ t => t) no_overrides
           (fun n => if (n <=? 2)%nat then Fulfilled unavailable
                     else Fulfilled all_good)
           2%nat all_good).
  - vm_compute; lia.
  - intros [ | [ | [ | i]]] Hi; try lia;
      (split; [ reflexivity | split; [ reflexivity | discriminate ] ]).
  - reflexivity.
  - reflexivity.
Defined.

(** X14: an aborted request or a client error is never retried: when an
    attempt fails with one, after any number of retried attempts, the
    call rejects with that very error at once (were the error a
    [ResponseError], its response would be returned), whatever retries
    remain. *)
Theorem bail_is_never_retried :
  forall (jitter : nat -> Z -> Z) (ov : RetryOverrides)
         (fetch : nat -> settled Response) (k : nat) (err : jserror),
    (k <= retries (retryOpts ov))%nat ->
    (forall i, (1 <= i <= k)%nat -> transient (retryOpts ov) (fetch i)) ->
    fetch (S k) = Rejected err ->
    is_aborted err || isClientError err = true ->
    snd (fetchRetry jitter ov fetch)
    = match err with
      | ResponseError res => Fulfilled res
      | _ => Rejected err
      end
    /\ fetches (fst (fetchRetry jitter ov fetch)) = seq 1 (S k)
    /\ backoffs (fst (fetchRetry jitter ov fetch))
       = firstn k (timeouts jitter (retryOpts ov)).
Proof.
  intros jitter ov fetch k err Hk Htr Hf Hbail.
  rewrite fetchRetry_events, fetchRetry_result.
  destruct (retry_stops (retryOpts ov) fetch (Bails err) I k
              (timeouts jitter (retryOpts ov)) 1%nat [])
    as (Hr & Hfs & Hbs).
  - rewrite timeouts_length; exact Hk.
  - apply transient_from_one; exact Htr.
  - change (1 + k)%nat with (S k). rewrite Hf.
    unfold attempt, attempt_catch. cbn [snd].
    destruct (is_aborted err); [ reflexivity | ].
    simpl in Hbail. rewrite Hbail. reflexivity.
  - rewrite Hr. cbn [settled_of_end]. destruct err; auto.
Qed.


Lemma bail_is_never_retried_witness :
  snd (fetchRetry (fun _ t => t) no_overrides
         (fun n => if (n <=? 1)%nat then Fulfilled unavailable
                   else Rejected unescaped_path))
  = Rejected unescaped_path
  /\ fetches (fst (fetchRetry (fun _ t => t) no_overrides
                     (fun n => if (n <=? 1)%nat then Fulfilled unavailable
                               else Rejected unescaped_path)))
     = [1; 2]%nat
  /\ backoffs (fst (fetchRetry (fun _ t => t) no_overrides
                      (fun n => if (n <=? 1)%nat then Fulfilled unavailable
                                else Rejected unescaped_path)))
     = [10].
Proof.
  apply (bail_is_never_retried (fun _ t => t) no_overrides
           (fun n => if (n <=? 1)%nat then Fulfilled unavailable
                     else Rejected unescaped_path)
           1%nat unescaped_path).
  - vm_compute; lia.
  - intros [ | [ | i]] Hi; try lia;
      (split; [ reflexivity | split; [ reflexivity | discriminate ] ]).
  - reflexivity.
  - reflexivity.
Defined.



(** What an attempt ends with comes from what [fetch] settled to. *)
Lemma attempt_end_origin o s :
  match snd (attempt o s) with
  | Returns res => s = Fulfilled res
  | Bails e | Throws e =>
      s = Rejected e \/ exists res, s = Fulfilled res /\ e = ResponseError res
  end.
Proof.
  unfold attempt, attempt_catch. destruct s as [res | e].
  - assert (H : match (if is_aborted (ResponseError res)
                       then Bails (ResponseError res)
                       else if isClientError (ResponseError res)
                            then Bails (ResponseError res)
                            else Throws (ResponseError res)) with
                | Returns res' => Fulfilled res = Fulfilled res'
                | Bails e | Throws e =>
                    Fulfilled res = Rejected e
                    \/ exists res', Fulfilled res = Fulfilled res'
                                    /\ e = ResponseError res'
                end).
    { destruct (is_aborted _); [ | destruct (isClientError _) ];
        right; exists res; auto. }
    destruct (retryable res); [ | reflexivity ].
    destruct (retryAfter res) as [ra | ]; [ | exact H ].
    destruct (ra =? 0); [ exact H | ].
    destruct (ra >? maxRetryAfter o); [ reflexivity | exact H ].
  - cbn [snd].
    destruct (is_aborted e); [ | destruct (isClientError e) ]; left; reflexivity.
Qed.

Lemma retry_origin o fetch :
  forall delays n errors,
    match snd (retry o fetch delays n errors) with
    | Fulfilled res =>
        exists k, (n <= k <= n + List.length delays)%nat
                  /\ fetch k = Fulfilled res
    | Rejected e =>
        In e errors
        \/ exists k, (n <= k <= n + List.length delays)%nat
                     /\ (fetch k = Rejected e
                         \/ exists res, fetch k = Fulfilled res
                                        /\ e = ResponseError res)
    end.
Proof.
  induction delays as [ | d rest IH]; intros n errors; cbn [retry].
  - pose proof (attempt_end_origin o (fetch n)) as Ho.
    destruct (attempt o (fetch n)) as [evs [res | e | e]]; cbn [snd] in *.
    + exists n. split; [ simpl; lia | exact Ho ].
    + right. exists n. split; [ simpl; lia | exact Ho ].
    + assert (Hin : In (or_default (mainError (errors ++ [e])) e)
                       (errors ++ [e])).
      { apply main_or_default_In, in_or_app; right; left; reflexivity. }
      apply in_app_or in Hin as [Hin | [<- | []]]; [ left; exact Hin | ].
      right. exists n. split; [ simpl; lia | exact Ho ].
  - pose proof (attempt_end_origin o (fetch n)) as Ho.
    destruct (attempt o (fetch n)) as [evs [res | e | e]]; cbn [snd] in *.
    + exists n. split; [ simpl; lia | exact Ho ].
    + right. exists n. split; [ simpl; lia | exact Ho ].
    + specialize (IH (S n) (errors ++ [e])).
      destruct (retry o fetch rest (S n) (errors ++ [e])) as [evs' r'].
      cbn [snd] in *. destruct r' as [res | e'].
      * destruct IH as (k & Hk & Hfk). exists k.
        split; [ simpl; lia | exact Hfk ].
      * destruct IH as [Hin | (k & Hk & Hfk)].
        -- apply in_app_or in Hin as [Hin | [<- | []]]; [ left; exact Hin | ].
           right. exists n. split; [ simpl; lia | exact Ho ].
        -- right. exists k. split; [ simpl; lia | exact Hfk ].
Qed.

(** X16: the call invents nothing and never rejects with a [ResponseError]:
    a response it returns is one that [fetch] produced at one of the
    attempts (or that came wrapped in a [ResponseError]), and an error
    it rejects with is one that [fetch] rejected with at one of the
    attempts. *)
Theorem result_comes_from_fetch :
  forall (jitter : nat -> Z -> Z) (ov : RetryOverrides)
         (fetch : nat -> settled Response),
    match snd (fetchRetry jitter ov fetch) with
    | Fulfilled res =>
        exists k, (1 <= k <= S (retries (retryOpts ov)))%nat
                  /\ (fetch k = Fulfilled res
                      \/ fetch k = Rejected (ResponseError res))
    | Rejected e =>
        (forall res, e <> ResponseError res)
        /\ exists k, (1 <= k <= S (retries (retryOpts ov)))%nat
                     /\ fetch k = Rejected e
    end.
Proof.
  intros jitter ov fetch. rewrite fetchRetry_result.
  pose proof (retry_origin (retryOpts ov) fetch
                (timeouts jitter (retryOpts ov)) 1%nat []) as Ho.
  rewrite timeouts_length in Ho.
  destruct (snd (retry _ fetch _ 1 [])) as [res | e].
  - destruct Ho as (k & Hk & Hfk). exists k. split; [ lia | left; exact Hfk ].
  - destruct Ho as [[] | (k & Hk & [Hfk | (res & Hfk & ->)])].
    + destruct e as [res | m | nm m c t].
      * exists k. split; [ lia | right; exact Hfk ].
      * split; [ discriminate | ]. exists k. split; [ lia | exact Hfk ].
      * split; [ discriminate | ]. exists k. split; [ lia | exact Hfk ].
    + exists k. split; [ lia | left; exact Hfk ].
Qed.

Lemma parseInt_letter v :
  starts_with_letter v = true -> parseInt v 10 = None.
Proof.
  destruct v as [ | c rest]; [ discriminate | ].
  destruct c as [[] [] [] [] [] [] [] []]; intros H;
    try discriminate H; reflexivity.
Qed.

(** X17: a [retry-after] header that is absent, zero, or in the HTTP-date
    form (which begins with a letter) asks for no wait: the attempt ends
    at once, as it does for a retryable response without the header. *)
Theorem unusable_retry_after_is_not_waited :
  forall (o : RetryOpts) (res : Response),
    retryable res = true ->
    headers_get "retry-after" (headers res) = None
    \/ headers_get "retry-after" (headers res) = Some "0"
    \/ (exists v, headers_get "retry-after" (headers res) = Some v
                  /\ starts_with_letter v = true) ->
    attempt o (Fulfilled res) = ([], attempt_catch (ResponseError res)).
Proof.
  intros o res Hr Hh. unfold attempt, retryAfter. rewrite Hr.
  destruct Hh as [-> | [-> | (v & -> & Hv)]].
  - reflexivity.
  - reflexivity.
  - rewrite (parseInt_letter v Hv). reflexivity.
Qed.

Lemma unusable_retry_after_is_not_waited_witness :
  attempt (retryOpts no_overrides)
    (Fulfilled {| status := 503; statusText := "Service Unavailable";
                  headers := [("retry-after", "Wed, 21 Oct 2015 07:28:00 GMT")];
                  json := None |})
  = ([], Throws (ResponseError
                   {| status := 503; statusText := "Service Unavailable";
                      headers := [("retry-after",
                                   "Wed, 21 Oct 2015 07:28:00 GMT")];
                      json := None |})).
Proof.
  apply (unusable_retry_after_is_not_waited (retryOpts no_overrides)
           {| status := 503; statusText := "Service Unavailable";
              headers := [("retry-after", "Wed, 21 Oct 2015 07:28:00 GMT")];
              json := None |}).
  - reflexivity.
  - right; right. eexists; split; reflexivity.
Defined.

(** A run whose attempts are all retried uses every delay. *)
Lemma retry_all_transient_events o fetch :
  forall delays n errors,
    (forall i, (i <= List.length delays)%nat ->
               transient o (fetch (n + i)%nat)) ->
    fetches (fst (retry o fetch delays n errors))
    = seq n (S (List.length delays))
    /\ backoffs (fst (retry o fetch delays n errors)) = delays.
Proof.
  induction delays as [ | d rest IH]; intros n errors Htr;
    destruct (transient_throws o _ (Htr 0%nat (Nat.le_0_l _))) as [e He];
    rewrite Nat.add_0_r in He;
    destruct (attempt_events o (fetch n)) as [Hf Hb];
    cbn [retry];
    destruct (attempt o (fetch n)) as [evs r]; cbn [fst snd] in *; subst r.
  - cbn [fst fetches backoffs]. rewrite Hf, Hb. split; reflexivity.
  - specialize (IH (S n) (errors ++ [e])).
    destruct (retry o fetch rest (S n) (errors ++ [e])) as [evs' r'].
    cbn [fst snd] in *. cbn [fetches backoffs].
    rewrite fetches_app, backoffs_app. cbn [fetches backoffs].
    destruct IH as [Hfs Hbs].
    + intros i Hi. specialize (Htr (S i)).
      rewrite Nat.add_succ_r in Htr. apply Htr. simpl; lia.
    + rewrite Hf, Hb, Hfs, Hbs. split; reflexivity.
Qed.

Lemma last_repeat {A : Type} (a : A) n : last (repeat a n) a = a.
Proof.
  induction n as [ | n IH]; [ reflexivity | ].
  change (repeat a (S n)) with (a :: repeat a n).
  rewrite last_cons_default. exact IH.
Qed.

(** A run whose attempts all throw the same error rejects with it. *)
Lemma retry_all_throw_same o fetch e delays :
  (forall i, (i <= List.length delays)%nat ->
             snd (attempt o (fetch (1 + i)%nat)) = Throws e) ->
  snd (retry o fetch delays 1 []) = Rejected e.
Proof.
  intros Hall.
  rewrite (retry_all_throw o fetch delays 1%nat []
             (repeat e (S (List.length delays))) e).
  - cbn [app]. change (repeat e (S (List.length delays)))
      with (e :: repeat e (List.length delays)).
    rewrite (mainError_same_message (error_message e)).
    + cbn [or_default]. rewrite last_repeat. reflexivity.
    + intros e' He'. apply (repeat_spec (S (List.length delays)) e) in He'.
      subst e'. reflexivity.
  - apply repeat_length.
  - intros k Hk. rewrite repeat_length in Hk.
    rewrite nth_repeat. apply Hall. lia.
Qed.

End RetryBehaviour.

(* ================================================================== *)
(** * The timeout wrapper, alone and under the retry loop              *)
(* ================================================================== *)

Section TimeoutBehaviour.

Import FetchTimeout FetchRetry.

(** X18: without a timeout (absent, zero or negative) the wrapper is
    transparent: no timer is armed and the promise settles exactly as
    the wrapped call does, late or not; if the wrapped call never
    settles, neither does the promise. *)
Theorem no_timeout_passes_through :
  forall (timeout : option Z) (u : underlying),
    timeout = None \/ (exists t, timeout = Some t /\ t <= 0) ->
    armed (fetchTimeout timeout) = []
    /\ awaited (run_call timeout u)
       = match u with
         | Quick s => Some s
         | Slow late => late
         end.
Proof.
  intros timeout u Hno.
  assert (H0 : fetchTimeout timeout
               = {| outcome := Pending; timeoutId := None; armed := [] |}).
  { unfold fetchTimeout. destruct Hno as [-> | (t & -> & Ht)]; [ reflexivity | ].
    destruct (Z.eqb_spec t 0); [ reflexivity | ].
    destruct (Z.gtb_spec t 0); [ lia | reflexivity ]. }
  unfold run_call. rewrite H0. split; [ reflexivity | ].
  destruct u as [[res | e] | [[res | e] | ]]; reflexivity.
Qed.

Lemma no_timeout_passes_through_witness :
  armed (fetchTimeout (Some (-1))) = []
  /\ awaited (run_call (Some (-1)) (Slow (Some (Fulfilled all_good))))
     = Some (Fulfilled all_good).
Proof.
  apply (no_timeout_passes_through (Some (-1))
           (Slow (Some (Fulfilled all_good)))).
  right. exists (-1). split; [ reflexivity | lia ].
Defined.

Lemma positive_timeout_settles t u :
  0 < t ->
  awaited (run_call (Some t) u)
  = Some (match u with
          | Quick s => s
          | Slow _ => Rejected timeout_error
          end)
  /\ armed (run_call (Some t) u) = [].
Proof.
  intros Ht. unfold run_call. rewrite (fetchTimeout_arms t Ht).
  destruct u as [[res | e] | [[res | e] | ]]; split; reflexivity.
Qed.

(** X19: with a positive timeout the promise always settles: as the wrapped
    call when that settles before the timer elapses, and with the
    timeout error otherwise, a late outcome being ignored; afterwards
    no timer of the call is left. *)
Theorem positive_timeout_always_settles :
  forall (t : Z) (u : underlying),
    0 < t ->
    awaited (run_call (Some t) u)
    = Some (match u with
            | Quick s => s
            | Slow _ => Rejected timeout_error
            end)
    /\ armed (run_call (Some t) u) = [].
Proof.
  intros t u Ht. apply positive_timeout_settles; exact Ht.
Qed.

Lemma positive_timeout_always_settles_witness :
  awaited (run_call (Some 500) (Slow None)) = Some (Rejected timeout_error)
  /\ armed (run_call (Some 500) (Slow None)) = [].
Proof.
  apply (positive_timeout_always_settles 500 (Slow None)). lia.
Defined.

(** X20: [decoratedFetch] retries a request that times out: when under a
    positive timeout the wrapped call is too slow at every attempt, the
    call makes every attempt the retry limit allows, waiting every
    backoff delay, and then rejects with the timeout error. *)
Theorem timed_out_attempts_are_retried :
  forall (jitter : nat -> Z -> Z) (ov : RetryOverrides) (t : Z)
         (u : nat -> underlying) (fetch : nat -> settled Response),
    0 < t ->
    DecoratedFetch.attempts (Some t) u fetch ->
    (forall n, (1 <= n <= S (retries (retryOpts ov)))%nat ->
               exists late, u n = Slow late) ->
    snd (fetchRetry jitter ov fetch) = Rejected timeout_error
    /\ fetches (fst (fetchRetry jitter ov fetch))
       = seq 1 (S (retries (retryOpts ov)))
    /\ backoffs (fst (fetchRetry jitter ov fetch))
       = timeouts jitter (retryOpts ov).
Proof.
  intros jitter ov t u fetch Ht Hwrap Hslow.
  assert (Hf : forall n, (1 <= n <= S (retries (retryOpts ov)))%nat ->
                         fetch n = Rejected timeout_error).
  { intros n Hn. destruct (Hslow n Hn) as [late Hu].
    specialize (Hwrap n). rewrite Hu in Hwrap.
    rewrite (proj1 (positive_timeout_settles t (Slow late) Ht)) in Hwrap.
    injection Hwrap as <-. reflexivity. }
  rewrite fetchRetry_events, fetchRetry_result.
  rewrite <- (timeouts_length jitter (retryOpts ov)) in Hf.
  split.
  - rewrite (retry_all_throw_same (retryOpts ov) fetch timeout_error);
      [ reflexivity | ].
    intros i Hi. rewrite Hf by lia. reflexivity.
  - rewrite <- (timeouts_length jitter (retryOpts ov)).
    apply retry_all_transient_events.
    intros i Hi. rewrite Hf by lia.
    split; [ reflexivity | split; [ reflexivity | discriminate ] ].
Qed.

Lemma timed_out_attempts_are_retried_witness :
  snd (fetchRetry (fun _ d => d) two_retries
         (fun _ => Rejected timeout_error))
  = Rejected timeout_error
  /\ fetches (fst (fetchRetry (fun _ d => d) two_retries
                     (fun _ => Rejected timeout_error)))
     = [1; 2; 3]%nat
  /\ backoffs (fst (fetchRetry (fun _ d => d) two_retries
                      (fun _ => Rejected timeout_error)))
     = [10; 60].
Proof.
  apply (timed_out_attempts_are_retried (fun _ d => d) two_retries 500
           (fun _ => Slow None) (fun _ => Rejected timeout_error)).
  - lia.
  - intros n. reflexivity.
  - intros n _. exists None. reflexivity.
Defined.

End TimeoutBehaviour.
